(** * SUGARBEAR step sequencer: pattern model, Scheduler and Sequencer

    A shallow embedding of

    - [src/types/sequencer.types.ts]  (Step, Track, Pattern and the immutable
      pattern operations),
    - [src/types/audio.types.ts]      ([gainValue], [VoiceConfig],
      [SchedulerConfig], the [IScheduler] interface),
    - [src/types/transport.types.ts]  ([TransportState], [bpm]),
    - [src/audio/Scheduler.ts]        (the lookahead scheduler, in exact
      arithmetic and, for the times it hands out, in binary64),
    - [src/sequencer/Sequencer.ts]    (transport, editing, tick handling).

    Conventions of the embedding.

    - A JavaScript [number] holding a time, a beat, a tempo, a gain or a
      velocity is an exact rational ([Q]); arithmetic on it is exact and
      equality of computed values is [Qeq] ([==]). What is proved over [Q] is
      stated so that it does not depend on a sum or a quotient being exact.
    - Where the exact value of a computed time is the question, the number is
      an IEEE 754 binary64 value ([float], Rocq's primitive floats) and the
      arithmetic rounds as JavaScript's does ([Scheduler64]).
    - A [number] holding a count or an index is an integer ([Z]); the one
      place where the source can produce [NaN] from integers (the remainder
      by a zero pattern length) is modelled by [JsInt].
    - [Date] values are integer timestamps; [new Date()] reads a clock that
      the caller of the model passes in as [now].
    - [console.log] and [console.warn] are diagnostics and are dropped. *)

From Stdlib Require Import ZArith QArith Qround Qminmax Lqa Lia Floats.
From stdpp Require Import gmap strings list.

Local Open Scope Z_scope.

(** ** Numbers *)

(** Result of an integer computation that may be [NaN] in JavaScript. *)
Inductive JsInt :=
| NaN
| Int (z : Z).

(** [a % b] on integers: truncated remainder, the sign follows the
    dividend, and the remainder by zero is [NaN]. *)
Definition js_rem (a b : Z) : JsInt :=
  if b =? 0 then NaN else Int (Z.rem a b).

(** [arr[i]]: [undefined] (here [None]) for [NaN], for a negative index and
    for an index past the end. *)
Definition array_get {A : Type} (arr : list A) (i : JsInt) : option A :=
  match i with
  | NaN => None
  | Int z => if z <? 0 then None else arr !! Z.to_nat z
  end.

(** [Math.max(0, Math.min(1, value))] of audio.types.ts. *)
Definition gainValue (value : Q) : Q := Qmax 0 (Qmin 1 value).

(** transport.types: [Math.max(60, Math.min(200, value))]. *)
Definition bpm (value : Q) : Q := Qmax 60 (Qmin 200 value).

(** ** Pattern model (sequencer.types.ts) *)

Module Step.
Record t := mk { active : bool; velocity : Q }.
End Step.

Module Track.
Record t := mk {
  id : string;
  name : string;
  sampleId : string;
  steps : list Step.t;
  volume : Q;
  muted : bool;
  soloed : bool;
  color : string
}.
End Track.

Module TimeSignature.
Record t := mk { numerator : Z; denominator : Z }.
End TimeSignature.

Module Pattern.
Record t := mk {
  id : string;
  name : string;
  tracks : list Track.t;
  length : Z;
  timeSignature : TimeSignature.t;
  createdAt : Z;
  modifiedAt : Z
}.
End Pattern.

(** Errors thrown by the constructors. *)
Inductive Error :=
| StepIndexOutOfBounds (value maxSteps : Z).

(** [stepIndex(value, maxSteps = 16)]: throws out of bounds. *)
Definition stepIndex (value : Z) (maxSteps : Z) : Error + Z :=
  if (value <? 0) || (maxSteps <=? value)
  then inl (StepIndexOutOfBounds value maxSteps)
  else inr value.

Definition createStep (active : bool) (velocity : Q) : Step.t :=
  Step.mk active velocity.

(** [{ ...step, active: !step.active }] *)
Definition flipActive (step : Step.t) : Step.t :=
  Step.mk (negb (Step.active step)) (Step.velocity step).

(** [{ ...step, velocity }] *)
Definition withVelocity (velocity : Q) (step : Step.t) : Step.t :=
  Step.mk (Step.active step) velocity.

(** [{ ...track, steps }] *)
Definition withSteps (steps : list Step.t) (track : Track.t) : Track.t :=
  Track.mk (Track.id track) (Track.name track) (Track.sampleId track) steps
    (Track.volume track) (Track.muted track) (Track.soloed track)
    (Track.color track).

(** [{ ...track, volume }] *)
Definition withVolume (volume : Q) (track : Track.t) : Track.t :=
  Track.mk (Track.id track) (Track.name track) (Track.sampleId track)
    (Track.steps track) volume (Track.muted track) (Track.soloed track)
    (Track.color track).

(** [{ ...track, muted: !track.muted }] *)
Definition flipMuted (track : Track.t) : Track.t :=
  Track.mk (Track.id track) (Track.name track) (Track.sampleId track)
    (Track.steps track) (Track.volume track) (negb (Track.muted track))
    (Track.soloed track) (Track.color track).

(** [{ ...track, soloed: !track.soloed }] *)
Definition flipSoloed (track : Track.t) : Track.t :=
  Track.mk (Track.id track) (Track.name track) (Track.sampleId track)
    (Track.steps track) (Track.volume track) (Track.muted track)
    (negb (Track.soloed track)) (Track.color track).

(** [{ ...pattern, tracks, modifiedAt: new Date() }] *)
Definition withTracks (tracks : list Track.t) (now : Z) (pattern : Pattern.t)
  : Pattern.t :=
  Pattern.mk (Pattern.id pattern) (Pattern.name pattern) tracks
    (Pattern.length pattern) (Pattern.timeSignature pattern)
    (Pattern.createdAt pattern) now.

(** [steps.map((step, idx) => idx === stepIdx ? f(step) : step)]; the index of
    [map] is a natural number, [stepIdx] is whatever number the caller
    passed. *)
Definition mapStepAt (f : Step.t → Step.t) (stepIdx : Z) (steps : list Step.t)
  : list Step.t :=
  imap (λ idx step, if Z.of_nat idx =? stepIdx then f step else step) steps.

(** [tracks.map(track => track.id === trackId ? f(track) : track)] *)
Definition mapTrack (f : Track.t → Track.t) (trackId : string)
    (tracks : list Track.t) : list Track.t :=
  (λ track, if String.eqb (Track.id track) trackId then f track else track)
    <$> tracks.

(** The immutable pattern operations; [now] is the value of [new Date()]. *)
Definition toggleStep (now : Z) (pattern : Pattern.t) (trackId : string)
    (stepIdx : Z) : Pattern.t :=
  withTracks
    (mapTrack (λ track,
       withSteps (mapStepAt flipActive stepIdx (Track.steps track)) track)
       trackId (Pattern.tracks pattern))
    now pattern.

Definition setStepVelocity (now : Z) (pattern : Pattern.t) (trackId : string)
    (stepIdx : Z) (velocity : Q) : Pattern.t :=
  withTracks
    (mapTrack (λ track,
       withSteps (mapStepAt (withVelocity velocity) stepIdx
                    (Track.steps track)) track)
       trackId (Pattern.tracks pattern))
    now pattern.

Definition setTrackVolume (now : Z) (pattern : Pattern.t) (trackId : string)
    (volume : Q) : Pattern.t :=
  withTracks (mapTrack (withVolume volume) trackId (Pattern.tracks pattern))
    now pattern.

Definition toggleTrackMute (now : Z) (pattern : Pattern.t) (trackId : string)
  : Pattern.t :=
  withTracks (mapTrack flipMuted trackId (Pattern.tracks pattern)) now pattern.

Definition toggleTrackSolo (now : Z) (pattern : Pattern.t) (trackId : string)
  : Pattern.t :=
  withTracks (mapTrack flipSoloed trackId (Pattern.tracks pattern)) now pattern.

(** ** Scheduler (audio/Scheduler.ts) *)

Module Scheduler.

(** [SchedulerConfig] of audio.types.ts. *)
Record SchedulerConfig := mkConfig { lookahead : Q; scheduleInterval : Q }.

(** constants: [AUDIO.LOOKAHEAD_TIME], [AUDIO.SCHEDULE_INTERVAL]. *)
Definition LOOKAHEAD_TIME : Q := 1 # 10.
Definition SCHEDULE_INTERVAL : Q := 25.

Section WithWorld.
(** [W] is whatever the tick callback reads and writes; a
    [SchedulerCallback] is then a state transformer on [W]. This covers the
    callbacks that return normally and leave the scheduler alone, as the
    Sequencer's tick handler does; a callback that calls back into the
    scheduler or throws is outside the model. *)
Context {W : Type}.

Definition SchedulerCallback : Type := Q → Q → W → W.

(** [_intervalId] records whether an interval timer is armed; the numeric
    handle returned by [setInterval] is not modelled. *)
Record t := mk {
  _config : SchedulerConfig;
  _bpm : Q;
  _isRunning : bool;
  _intervalId : bool;
  _callback : option SchedulerCallback;
  _currentBeat : Q;
  _nextNoteTime : Q
}.

Definition create (initialBPM : Q) (config : SchedulerConfig) : t :=
  mk config initialBPM false false None 0%Q 0%Q.

(** [contextTime] is [this._context.currentTime] at the call. *)
Definition start (callback : SchedulerCallback) (contextTime : Q) (s : t)
  : t :=
  if _isRunning s then s
  else mk (_config s) (_bpm s) true true (Some callback) 0%Q contextTime.

Definition stop (s : t) : t :=
  if negb (_isRunning s) then s
  else mk (_config s) (_bpm s) false false None 0%Q 0%Q.

Definition isRunning (s : t) : bool := _isRunning s.
Definition getCurrentBeat (s : t) : Q := _currentBeat s.

Definition setTempo (newBPM : Q) (s : t) : t :=
  mk (_config s) newBPM (_isRunning s) (_intervalId s) (_callback s)
    (_currentBeat s) (_nextNoteTime s).

Definition getTempo (s : t) : Q := _bpm s.

Definition reset (contextTime : Q) (s : t) : t :=
  mk (_config s) (_bpm s) (_isRunning s) (_intervalId s) (_callback s)
    0%Q contextTime.

Definition getSecondsPerBeat (s : t) : Q := (60 / _bpm s)%Q.
Definition getSecondsPerStep (s : t) : Q := (getSecondsPerBeat s / 4)%Q.

(** The sums and quotients are exact here; [Scheduler64._advanceNote] is the
    same function with binary64 rounding. *)
Definition _advanceNote (s : t) : t :=
  let secondsPerBeat := (60 / _bpm s)%Q in
  let secondsPerSixteenth := (secondsPerBeat / 4)%Q in
  mk (_config s) (_bpm s) (_isRunning s) (_intervalId s) (_callback s)
    (_currentBeat s + (1 # 4))%Q
    (_nextNoteTime s + secondsPerSixteenth)%Q.

(** The [while] loop of [_scheduleLoop]. The loop need not terminate
    (a non-positive tempo never reaches the window's end), so it runs on
    fuel: [None] means the fuel ran out before the loop condition
    failed. *)
Fixpoint scheduleWhile (fuel : nat) (lookaheadEndTime : Q)
    (callback : SchedulerCallback) (s : t) (w : W) : option (t * W) :=
  if Qlt_le_dec (_nextNoteTime s) lookaheadEndTime then
    match fuel with
    | O => None
    | S fuel' =>
        let w' := callback (_nextNoteTime s) (_currentBeat s) w in
        scheduleWhile fuel' lookaheadEndTime callback (_advanceNote s) w'
    end
  else Some (s, w).

(** One firing of the interval timer at audio time [contextTime]. *)
Definition _scheduleLoop (fuel : nat) (contextTime : Q) (s : t) (w : W)
  : option (t * W) :=
  match _callback s with
  | None => Some (s, w)
  | Some callback =>
      if negb (_isRunning s) then Some (s, w)
      else
        let currentTime := contextTime in
        let lookaheadEndTime :=
          (currentTime + lookahead (_config s))%Q in
        scheduleWhile fuel lookaheadEndTime callback s w
  end.

(** The interval timer set up by [start]: one [_scheduleLoop] per
    firing, at the audio times [polls] (any times, in any order: the
    timer's period and jitter are the caller's choice). *)
Fixpoint runPolls (fuel : nat) (polls : list Q) (s : t) (w : W)
  : option (t * W) :=
  match polls with
  | [] => Some (s, w)
  | contextTime :: polls' =>
      match _scheduleLoop fuel contextTime s w with
      | None => None
      | Some (s', w') => runPolls fuel polls' s' w'
      end
  end.

Definition beatToTime (beat : Q) (s : t) : Q :=
  let secondsPerBeat := (60 / _bpm s)%Q in
  let timeOffset := (beat * secondsPerBeat)%Q in
  (_nextNoteTime s + timeOffset)%Q.

Definition timeToBeat (time : Q) (s : t) : Q :=
  let secondsPerBeat := (60 / _bpm s)%Q in
  let elapsedTime := (time - _nextNoteTime s)%Q in
  (elapsedTime / secondsPerBeat)%Q.

End WithWorld.

Arguments t : clear implicits.
Arguments SchedulerCallback : clear implicits.

(** The observer used by the timing tests: a callback that pushes every
    scheduled time onto a list ([scheduledTimes.push(time)]). *)
Definition recordTime : SchedulerCallback (list Q) :=
  λ time _ scheduledTimes, scheduledTimes ++ [time].

End Scheduler.


(** ** The Scheduler's clock in binary64 (audio/Scheduler.ts)

    The times the Scheduler hands to its callback are JavaScript numbers:
    [_advanceNote] adds the step to [_nextNoteTime] with binary64 rounding,
    and the loop compares with binary64 [<]. [Scheduler64] is the scheduling
    loop of [Scheduler] over binary64 values. *)

Module Scheduler64.

Record SchedulerConfig := mkConfig {
  lookahead : float;
  scheduleInterval : float
}.

Section WithWorld.
Context {W : Type}.

Definition SchedulerCallback : Type := float → float → W → W.

Record t := mk {
  _config : SchedulerConfig;
  _bpm : float;
  _isRunning : bool;
  _intervalId : bool;
  _callback : option SchedulerCallback;
  _currentBeat : float;
  _nextNoteTime : float
}.

Definition create (initialBPM : float) (config : SchedulerConfig) : t :=
  mk config initialBPM false false None 0%float 0%float.

Definition start (callback : SchedulerCallback) (contextTime : float) (s : t)
  : t :=
  if _isRunning s then s
  else mk (_config s) (_bpm s) true true (Some callback) 0%float contextTime.

Definition _advanceNote (s : t) : t :=
  let secondsPerBeat := (60 / _bpm s)%float in
  let secondsPerSixteenth := (secondsPerBeat / 4)%float in
  mk (_config s) (_bpm s) (_isRunning s) (_intervalId s) (_callback s)
    (_currentBeat s + 0.25)%float
    (_nextNoteTime s + secondsPerSixteenth)%float.

(** How a run on fuel ended: the loop condition failed and the call
    returned, or the fuel ran out with the loop still going. *)
Inductive Completion :=
| Returned
| OutOfFuel.

(** The [while] loop of [_scheduleLoop] on fuel. In binary64 the loop can
    go on for ever (a step too small to change [_nextNoteTime]), so the
    result carries the state and the callback's state reached when the
    fuel ran out: the ticks handed over so far are never lost. *)
Fixpoint scheduleWhile (fuel : nat) (lookaheadEndTime : float)
    (callback : SchedulerCallback) (s : t) (w : W) : t * W * Completion :=
  if (_nextNoteTime s <? lookaheadEndTime)%float then
    match fuel with
    | O => (s, w, OutOfFuel)
    | S fuel' =>
        let w' := callback (_nextNoteTime s) (_currentBeat s) w in
        scheduleWhile fuel' lookaheadEndTime callback (_advanceNote s) w'
    end
  else (s, w, Returned).

Definition _scheduleLoop (fuel : nat) (contextTime : float) (s : t) (w : W)
  : t * W * Completion :=
  match _callback s with
  | None => (s, w, Returned)
  | Some callback =>
      if negb (_isRunning s) then (s, w, Returned)
      else
        let currentTime := contextTime in
        let lookaheadEndTime :=
          (currentTime + lookahead (_config s))%float in
        scheduleWhile fuel lookaheadEndTime callback s w
  end.

(** One [_scheduleLoop] per timer firing, at the audio times [polls]; a
    firing that does not return is the last thing that happens. *)
Fixpoint runPolls (fuel : nat) (polls : list float) (s : t) (w : W)
  : t * W * Completion :=
  match polls with
  | [] => (s, w, Returned)
  | contextTime :: polls' =>
      match _scheduleLoop fuel contextTime s w with
      | (s', w', Returned) => runPolls fuel polls' s' w'
      | stuck => stuck
      end
  end.

End WithWorld.

Arguments t : clear implicits.
Arguments SchedulerCallback : clear implicits.

(** [scheduledTimes.push(time)] *)
Definition recordTime : SchedulerCallback (list float) :=
  λ time _ scheduledTimes, scheduledTimes ++ [time].

End Scheduler64.


(** ** The collaborators of the Sequencer (audio.types.ts) *)

Module VoiceConfig.
Record t := mk {
  sampleId : string;
  startTime : Q;
  gain : Q;
  playbackRate : option Q
}.
End VoiceConfig.

(** [IAudioEngine] as the Sequencer uses it: the audio clock it reads and the
    voice-output port it writes. The port is a trace: [playVoice] appends the
    command, as the engine of Sequencer.test.ts does. *)
Module AudioEngine.
Record t := mk {
  currentTime : Q;
  playedVoices : list VoiceConfig.t
}.

Definition playVoice (config : VoiceConfig.t) (e : t) : t :=
  mk (currentTime e) (playedVoices e ++ [config]).
End AudioEngine.

(** [IScheduler]. The callback argument of [start] is left out of the
    interface: the Sequencer always registers its own tick handler, and what
    an implementation does with it is the implementation's business. *)
Module IScheduler.
Class ops (S : Type) := {
  start : S → S;
  stop : S → S;
  isRunning : S → bool;
  getCurrentBeat : S → Q;
  setTempo : Q → S → S;
  getTempo : S → Q
}.
End IScheduler.

(** The scheduler double of Sequencer.test.ts. *)
Module MockScheduler.
Record t := mk {
  _isRunning : bool;
  _callback : bool;
  _tempo : Q;
  _currentBeat : Q
}.

Definition create : t := mk false false 120%Q 0%Q.

#[global] Instance mock_ops : IScheduler.ops t := {|
  IScheduler.start s := mk true true (_tempo s) (_currentBeat s);
  IScheduler.stop s := mk false false (_tempo s) (_currentBeat s);
  IScheduler.isRunning := _isRunning;
  IScheduler.getCurrentBeat := _currentBeat;
  IScheduler.setTempo newBpm s :=
    mk (_isRunning s) (_callback s) newBpm (_currentBeat s);
  IScheduler.getTempo := _tempo
|}.
End MockScheduler.

(** ** Sequencer (sequencer/Sequencer.ts) *)

Module Sequencer.

Record SequencerConfig := mkConfig { stepsPerBeat : Q; beatsPerBar : Q }.

Definition DEFAULT_CONFIG : SequencerConfig := mkConfig 4%Q 4%Q.

(** transport.types.ts *)
Inductive TransportState :=
| Stopped
| Playing (startBeat : Q) (startTime : Q)
| Paused (pausedBeat : Q).

Inductive PlaybackStatus := stopped | playing | paused.

Definition getPlaybackStatus (state : TransportState) : PlaybackStatus :=
  match state with
  | Stopped => stopped
  | Playing _ _ => playing
  | Paused _ => paused
  end.

Definition isPlaying (state : TransportState) : bool :=
  match getPlaybackStatus state with playing => true | _ => false end.

Section WithScheduler.
Context {Sch : Type} `{IScheduler.ops Sch}.

Record t := mk {
  _audioEngine : AudioEngine.t;
  _scheduler : Sch;
  _pattern : option Pattern.t;
  _transportState : TransportState;
  _currentStep : JsInt;
  _config : SequencerConfig;
  _soloedTracks : gset string
}.

Definition create (audioEngine : AudioEngine.t) (scheduler : Sch)
    (config : SequencerConfig) : t :=
  mk audioEngine scheduler None Stopped (Int 0) config ∅.

(** Getters. *)
Definition transportState (s : t) : TransportState := _transportState s.
Definition status (s : t) : PlaybackStatus :=
  getPlaybackStatus (_transportState s).
Definition pattern (s : t) : option Pattern.t := _pattern s.
Definition currentStep (s : t) : JsInt := _currentStep s.
Definition tempo (s : t) : Q := IScheduler.getTempo (_scheduler s).

(** Field assignments [this._x = v]. *)
Definition set_audioEngine (e : AudioEngine.t) (s : t) : t :=
  mk e (_scheduler s) (_pattern s) (_transportState s) (_currentStep s)
    (_config s) (_soloedTracks s).
Definition set_scheduler (sch : Sch) (s : t) : t :=
  mk (_audioEngine s) sch (_pattern s) (_transportState s) (_currentStep s)
    (_config s) (_soloedTracks s).
Definition set_pattern (p : option Pattern.t) (s : t) : t :=
  mk (_audioEngine s) (_scheduler s) p (_transportState s) (_currentStep s)
    (_config s) (_soloedTracks s).
Definition set_transportState (ts : TransportState) (s : t) : t :=
  mk (_audioEngine s) (_scheduler s) (_pattern s) ts (_currentStep s)
    (_config s) (_soloedTracks s).
Definition set_currentStep (i : JsInt) (s : t) : t :=
  mk (_audioEngine s) (_scheduler s) (_pattern s) (_transportState s) i
    (_config s) (_soloedTracks s).
Definition set_soloedTracks (solo : gset string) (s : t) : t :=
  mk (_audioEngine s) (_scheduler s) (_pattern s) (_transportState s)
    (_currentStep s) (_config s) solo.

Definition setPattern (pattern : Pattern.t) (s : t) : t :=
  set_currentStep (Int 0) (set_pattern (Some pattern) s).

Definition setTempo (newTempo : Q) (s : t) : t :=
  set_scheduler (IScheduler.setTempo newTempo (_scheduler s)) s.

Definition play (s : t) : t :=
  if isPlaying (_transportState s) then s
  else match _pattern s with
       | None => s
       | Some _ =>
           let startTime := AudioEngine.currentTime (_audioEngine s) in
           let s1 := set_transportState (Playing 0%Q startTime) s in
           set_scheduler (IScheduler.start (_scheduler s1)) s1
       end.

Definition pause (s : t) : t :=
  if negb (isPlaying (_transportState s)) then s
  else
    let currentBeat := IScheduler.getCurrentBeat (_scheduler s) in
    let s1 := set_transportState (Paused currentBeat) s in
    set_scheduler (IScheduler.stop (_scheduler s1)) s1.

Definition stop (s : t) : t :=
  let s1 := set_transportState Stopped s in
  let s2 := set_scheduler (IScheduler.stop (_scheduler s1)) s1 in
  set_currentStep (Int 0) s2.

(** The four editing methods that rebuild the track list by [map] and store
    [{ ...this._pattern, tracks: updatedTracks, modifiedAt: new Date() }]. *)
Definition toggleMute (now : Z) (trackId : string) (s : t) : t :=
  match _pattern s with
  | None => s
  | Some p =>
      let updatedTracks := mapTrack flipMuted trackId (Pattern.tracks p) in
      set_pattern (Some (withTracks updatedTracks now p)) s
  end.

Definition toggleSolo (now : Z) (trackId : string) (s : t) : t :=
  match _pattern s with
  | None => s
  | Some p =>
      match List.find (λ t, String.eqb (Track.id t) trackId)
              (Pattern.tracks p) with
      | None => s
      | Some track =>
          let solo :=
            if Track.soloed track
            then _soloedTracks s ∖ {[ trackId ]}
            else {[ trackId ]} ∪ _soloedTracks s in
          let s1 := set_soloedTracks solo s in
          let updatedTracks :=
            mapTrack flipSoloed trackId (Pattern.tracks p) in
          set_pattern (Some (withTracks updatedTracks now p)) s1
      end
  end.

Definition setTrackVolume (now : Z) (trackId : string) (volume : Q) (s : t)
  : t :=
  match _pattern s with
  | None => s
  | Some p =>
      let updatedTracks :=
        mapTrack (withVolume volume) trackId (Pattern.tracks p) in
      set_pattern (Some (withTracks updatedTracks now p)) s
  end.

Definition toggleStep (now : Z) (trackId : string) (stepIndex : Z) (s : t)
  : t :=
  match _pattern s with
  | None => s
  | Some p =>
      let updatedTracks :=
        mapTrack (λ track,
          let updatedSteps :=
            mapStepAt flipActive stepIndex (Track.steps track) in
          withSteps updatedSteps track) trackId (Pattern.tracks p) in
      set_pattern (Some (withTracks updatedTracks now p)) s
  end.

Definition setStepVelocity (now : Z) (trackId : string) (stepIndex : Z)
    (velocity : Q) (s : t) : t :=
  match _pattern s with
  | None => s
  | Some p =>
      let updatedTracks :=
        mapTrack (λ track,
          let updatedSteps :=
            mapStepAt (withVelocity velocity) stepIndex (Track.steps track) in
          withSteps updatedSteps track) trackId (Pattern.tracks p) in
      set_pattern (Some (withTracks updatedTracks now p)) s
  end.

(** The body of the [for] loop of [_onSchedulerTick] for one track: the
    voice it passes to [playVoice], or [None] when one of the three
    [continue]s is taken. *)
Definition trackVoice (hasSoloedTracks : bool) (time : Q) (step : JsInt)
    (track : Track.t) : option VoiceConfig.t :=
  if Track.muted track then None
  else if hasSoloedTracks && negb (Track.soloed track) then None
  else
    match array_get (Track.steps track) step with
    | None => None
    | Some stepData =>
        if negb (Step.active stepData) then None
        else
          let finalGain :=
            gainValue (Track.volume track * Step.velocity stepData)%Q in
          Some (VoiceConfig.mk (Track.sampleId track) time finalGain None)
    end.

(** The [for (const track of this._pattern.tracks)] loop, threading the
    audio engine through the iterations. *)
Fixpoint processTracks (hasSoloedTracks : bool) (time : Q) (step : JsInt)
    (tracks : list Track.t) (e : AudioEngine.t) : AudioEngine.t :=
  match tracks with
  | [] => e
  | track :: rest =>
      let e' :=
        match trackVoice hasSoloedTracks time step track with
        | None => e
        | Some config => AudioEngine.playVoice config e
        end in
      processTracks hasSoloedTracks time step rest e'
  end.

(** [Math.floor(beat * stepsPerBeat) % pattern.length] *)
Definition stepOfBeat (config : SequencerConfig) (length : Z) (beat : Q)
  : JsInt :=
  let stepInSequence := Qfloor (beat * stepsPerBeat config)%Q in
  js_rem stepInSequence length.

(** [this._soloedTracks.size > 0] *)
Definition hasSoloedTracks (s : t) : bool :=
  bool_decide (0 < size (_soloedTracks s))%nat.

Definition _onSchedulerTick (time : Q) (beat : Q) (s : t) : t :=
  match _pattern s with
  | None => s
  | Some p =>
      if negb (isPlaying (_transportState s)) then s
      else
        let step := stepOfBeat (_config s) (Pattern.length p) beat in
        let s1 := set_currentStep step s in
        set_audioEngine
          (processTracks (hasSoloedTracks s1) time step (Pattern.tracks p)
             (_audioEngine s1)) s1
  end.

Definition destroy (s : t) : t :=
  let s1 := stop s in
  let s2 := set_pattern None s1 in
  set_soloedTracks ∅ s2.

End WithScheduler.

Arguments t : clear implicits.

End Sequencer.


(** ** Specification vocabulary *)

(** Two patterns that agree on every field except [modifiedAt]. *)
Definition equalExceptModifiedAt (p q : Pattern.t) : Prop :=
  Pattern.id p = Pattern.id q ∧
  Pattern.name p = Pattern.name q ∧
  Pattern.tracks p = Pattern.tracks q ∧
  Pattern.length p = Pattern.length q ∧
  Pattern.timeSignature p = Pattern.timeSignature q ∧
  Pattern.createdAt p = Pattern.createdAt q.

(** [{ ...pattern, modifiedAt }] *)
Definition withModifiedAt (now : Z) (p : Pattern.t) : Pattern.t :=
  withTracks (Pattern.tracks p) now p.

(** The ids of the tracks of a pattern. *)
Definition trackIds (p : Pattern.t) : list string :=
  Track.id <$> Pattern.tracks p.

(** The ids of the tracks whose [soloed] flag is set in the held pattern
    (none when no pattern is held). *)
Definition soloedIdsOf (tracks : list Track.t) : gset string :=
  list_to_set (Track.id <$> filter (λ t, Track.soloed t = true) tracks).

Definition soloedIds (p : option Pattern.t) : gset string :=
  match p with
  | None => ∅
  | Some p => soloedIdsOf (Pattern.tracks p)
  end.

(** The solo-set is the set of soloed track ids of the held pattern. *)
Definition soloInSync {Sch : Type} (s : Sequencer.t Sch) : Prop :=
  Sequencer._soloedTracks s = soloedIds (Sequencer._pattern s).

(** The commands on the voice-output port. *)
Definition voices {Sch : Type} (s : Sequencer.t Sch) : list VoiceConfig.t :=
  AudioEngine.playedVoices (Sequencer._audioEngine s).

(** The data-model bound on gains and velocities. *)
Definition unitInterval (x : Q) : Prop := (0 <= x ∧ x <= 1)%Q.

(** The 16-step kick and snare pattern of Sequencer.test.ts. *)
Definition stepsOn (on : list nat) (velocity : Q) : list Step.t :=
  imap (λ i _, Step.mk (bool_decide (i ∈ on)) velocity) (replicate 16 tt).

Definition kickTrack : Track.t :=
  Track.mk "kick" "Kick" "kick" (stepsOn [0; 8]%nat (9 # 10)) (8 # 10)
    false false "#6366f1".

Definition snareTrack : Track.t :=
  Track.mk "snare" "Snare" "snare" (stepsOn [4; 12]%nat (8 # 10)) (8 # 10)
    false false "#6366f1".

Definition testPattern : Pattern.t :=
  Pattern.mk "test" "Test Pattern" [kickTrack; snareTrack] 16
    (TimeSignature.mk 4 4) 0 0.

Definition freshSequencer : Sequencer.t MockScheduler.t :=
  Sequencer.create (AudioEngine.mk 0%Q []) MockScheduler.create
    Sequencer.DEFAULT_CONFIG.

(** The [k]-th point of the schedule that starts at [t0] with step [st]. *)
Definition gridTime (t0 st : Q) (k : nat) : Q :=
  (t0 + inject_Z (Z.of_nat k) * st)%Q.

(** Every recorded time sits on the schedule, in order. *)
Definition onGrid (t0 st : Q) (times : list Q) : Prop :=
  ∀ k t, times !! k = Some t → (t == gridTime t0 st k)%Q.

(** What holds of a running scheduler at tempo [b], started at [t0] with
    lookahead [la], and of the times its callback has recorded so far. *)
Record Timing (t0 b la : Q) (s : Scheduler.t (list Q)) (times : list Q)
  : Prop := {
  timing_bpm : Scheduler._bpm s = b;
  timing_callback : Scheduler._callback s = Some Scheduler.recordTime;
  timing_running : Scheduler._isRunning s = true;
  timing_lookahead : Scheduler.lookahead (Scheduler._config s) = la;
  timing_next :
    (Scheduler._nextNoteTime s
       == gridTime t0 (60 / (4 * b)) (length times))%Q;
  timing_grid : onGrid t0 (60 / (4 * b))%Q times
}.

(** The binary64 schedule: [t0] with the step [60 / b / 4] added [k] times,
    each sum rounded. *)
Definition tickTime64 (t0 b : float) (k : nat) : float :=
  Nat.iter k (λ t, (t + 60 / b / 4)%float) t0.

(** The rational number a finite binary64 value stands for. *)
Definition exactValue (x : float) : option Q :=
  match Prim2SF x with
  | SpecFloat.S754_zero _ => Some 0%Q
  | SpecFloat.S754_finite negative m e =>
      let magnitude :=
        if 0 <=? e then inject_Z (Z.pos m * 2 ^ e)
        else (inject_Z (Z.pos m) / inject_Z (2 ^ (- e)))%Q in
      Some (if negative then (- magnitude)%Q else magnitude)
  | _ => None
  end.

(** What holds of a running binary64 scheduler at tempo [b], started at [t0]
    with lookahead [la], and of the times its callback has recorded. *)
Record Timing64 (t0 b la : float) (s : Scheduler64.t (list float))
    (times : list float) : Prop := {
  timing64_bpm : Scheduler64._bpm s = b;
  timing64_callback : Scheduler64._callback s = Some Scheduler64.recordTime;
  timing64_running : Scheduler64._isRunning s = true;
  timing64_lookahead : Scheduler64.lookahead (Scheduler64._config s) = la;
  timing64_next :
    Scheduler64._nextNoteTime s = tickTime64 t0 b (length times);
  timing64_times : ∀ k t, times !! k = Some t → t = tickTime64 t0 b k
}.

(** 120 BPM, lookahead 0.1 s, started when the audio clock reads a third of
    a second. *)
Definition startedAtThird : Scheduler64.t (list float) :=
  Scheduler64.start Scheduler64.recordTime (1 / 3)%float
    (Scheduler64.create 120 (Scheduler64.mkConfig (1 / 10) 25)).

(** Sequencer states used in the examples below. *)
Definition loadedSequencer : Sequencer.t MockScheduler.t :=
  Sequencer.setPattern testPattern freshSequencer.

Definition playingSequencer : Sequencer.t MockScheduler.t :=
  Sequencer.play loadedSequencer.


(** The kick soloed, then muted. *)
Definition mutedSoloedPattern : Pattern.t :=
  toggleTrackMute 2 (toggleTrackSolo 1 testPattern "kick") "kick".

Definition mutedSoloedKick : Sequencer.t MockScheduler.t :=
  Sequencer.play
    (Sequencer.toggleMute 2 "kick"
       (Sequencer.toggleSolo 1 "kick" loadedSequencer)).

(** A track with 4 steps in a pattern of length 16. *)
Definition shortTrack : Track.t :=
  Track.mk "hat" "Hat" "hat" (replicate 4 (Step.mk true (1 # 2))) (8 # 10)
    false false "#6366f1".

Definition raggedPattern : Pattern.t :=
  Pattern.mk "ragged" "Ragged" [shortTrack; snareTrack] 16
    (TimeSignature.mk 4 4) 0 0.

Definition raggedSequencer : Sequencer.t MockScheduler.t :=
  Sequencer.play (Sequencer.setPattern raggedPattern freshSequencer).

(** Patterns with a [soloed] flag already set, as the pattern model's
    [toggleTrackSolo] produces them. *)
Definition soloedKickPattern : Pattern.t :=
  toggleTrackSolo 1 testPattern "kick".

Definition soloedSnarePattern : Pattern.t :=
  toggleTrackSolo 2 testPattern "snare".

(** Solo the kick, then load a pattern in which the snare is the soloed
    track, then play. *)
Definition staleSoloSequencer : Sequencer.t MockScheduler.t :=
  Sequencer.play
    (Sequencer.setPattern soloedSnarePattern
       (Sequencer.toggleSolo 1 "kick" loadedSequencer)).

(** Solo the kick, then load the plain test pattern, then play. *)
Definition silencedSequencer : Sequencer.t MockScheduler.t :=
  Sequencer.play
    (Sequencer.setPattern testPattern
       (Sequencer.toggleSolo 1 "kick" loadedSequencer)).

(** ** More of the pattern model (sequencer.types.ts) *)

(** The default velocity of [createStep], 0.8. *)
Definition DEFAULT_STEP_VELOCITY : Q := 8 # 10.

(** [a || b] on an optional string: the empty string is falsy. *)
Definition orString (a : option string) (b : string) : string :=
  match a with
  | Some s => if String.eqb s "" then b else s
  | None => b
  end.

(** [a || b] on an optional rational number: zero is falsy. *)
Definition orNumber (a : option Q) (b : Q) : Q :=
  match a with
  | Some x => if Qeq_bool x 0 then b else x
  | None => b
  end.

(** [a || b] on an optional integer: zero is falsy. *)
Definition orInteger (a : option Z) (b : Z) : Z :=
  match a with
  | Some x => if x =? 0 then b else x
  | None => b
  end.

(** [a || b] on an optional array or object: every array and object is
    truthy, the empty array too. *)
Definition orObject {A : Type} (a : option A) (b : A) : A :=
  match a with
  | Some x => x
  | None => b
  end.

Module CreateTrackParams.
Record t := mk {
  id : option string;
  name : string;
  sampleId : string;
  steps : option (list Step.t);
  volume : option Q;
  color : option string
}.
End CreateTrackParams.

(** [createTrack(params)]; [uuid] is what [crypto.randomUUID()] returns
    when it is called. *)
Definition createTrack (uuid : string) (params : CreateTrackParams.t)
  : Track.t :=
  let defaultSteps :=
    replicate 16 (createStep false DEFAULT_STEP_VELOCITY) in
  Track.mk
    (orString (CreateTrackParams.id params) uuid)
    (CreateTrackParams.name params)
    (CreateTrackParams.sampleId params)
    (orObject (CreateTrackParams.steps params) defaultSteps)
    (orNumber (CreateTrackParams.volume params) (8 # 10))
    false
    false
    (orString (CreateTrackParams.color params) "#6366f1").

Module CreatePatternParams.
Record t := mk {
  id : option string;
  name : option string;
  tracks : option (list Track.t);
  length : option Z;
  timeSignature : option TimeSignature.t
}.

(** [{}], the default argument of [createPattern]. *)
Definition empty : t := mk None None None None None.
End CreatePatternParams.

(** [createPattern(params = {})]; [created] and [modified] are the two
    readings of [new Date()]. *)
Definition createPattern (uuid : string) (created modified : Z)
    (params : CreatePatternParams.t) : Pattern.t :=
  Pattern.mk
    (orString (CreatePatternParams.id params) uuid)
    (orString (CreatePatternParams.name params) "Untitled Pattern")
    (orObject (CreatePatternParams.tracks params) [])
    (orInteger (CreatePatternParams.length params) 16)
    (orObject (CreatePatternParams.timeSignature params)
       (TimeSignature.mk 4 4))
    created
    modified.

Definition addTrack (now : Z) (pattern : Pattern.t) (track : Track.t)
  : Pattern.t :=
  withTracks (Pattern.tracks pattern ++ [track]) now pattern.

Definition removeTrack (now : Z) (pattern : Pattern.t) (trackId : string)
  : Pattern.t :=
  withTracks
    (List.filter (λ track, negb (String.eqb (Track.id track) trackId))
       (Pattern.tracks pattern))
    now pattern.

(** [track.steps.map(() => createStep(false))] *)
Definition clearSteps (steps : list Step.t) : list Step.t :=
  (λ _, createStep false DEFAULT_STEP_VELOCITY) <$> steps.

Definition clearTrack (now : Z) (pattern : Pattern.t) (trackId : string)
  : Pattern.t :=
  withTracks
    (mapTrack (λ track, withSteps (clearSteps (Track.steps track)) track)
       trackId (Pattern.tracks pattern))
    now pattern.

Definition clearPattern (now : Z) (pattern : Pattern.t) : Pattern.t :=
  withTracks
    ((λ track, withSteps (clearSteps (Track.steps track)) track)
       <$> Pattern.tracks pattern)
    now pattern.

(** ** What edits keep *)

(** What is kept of a pattern by every edit that does not add or remove a
    track: the top-level fields other than [modifiedAt] and, per track, the
    identity fields and the number of steps. *)
Definition trackShape (track : Track.t) : string * string * string * nat * string :=
  (Track.id track, Track.name track, Track.sampleId track,
   length (Track.steps track), Track.color track).

Definition patternShape (p : Pattern.t)
  : string * string * Z * TimeSignature.t * Z
    * list (string * string * string * nat * string) :=
  (Pattern.id p, Pattern.name p, Pattern.length p, Pattern.timeSignature p,
   Pattern.createdAt p, trackShape <$> Pattern.tracks p).

(** ** The tick stream of the Scheduler *)





(** ** Driving the Sequencer *)

(** The public operations of the Sequencer and its tick handler, as
    commands. *)
Module Command.
Inductive t :=
| SetPattern (pattern : Pattern.t)
| SetTempo (newTempo : Q)
| Play
| Pause
| Stop
| ToggleMute (now : Z) (trackId : string)
| ToggleSolo (now : Z) (trackId : string)
| SetTrackVolume (now : Z) (trackId : string) (volume : Q)
| ToggleStep (now : Z) (trackId : string) (stepIndex : Z)
| SetStepVelocity (now : Z) (trackId : string) (stepIndex : Z) (velocity : Q)
| Tick (time : Q) (beat : Q)
| Destroy.

Definition isSetPattern (c : t) : bool :=
  match c with SetPattern _ => true | _ => false end.

Definition isTick (c : t) : bool :=
  match c with Tick _ _ => true | _ => false end.
End Command.

(** One call on the Sequencer. *)
Definition exec {Sch : Type} `{IScheduler.ops Sch} (c : Command.t)
    (s : Sequencer.t Sch) : Sequencer.t Sch :=
  match c with
  | Command.SetPattern pattern => Sequencer.setPattern pattern s
  | Command.SetTempo newTempo => Sequencer.setTempo newTempo s
  | Command.Play => Sequencer.play s
  | Command.Pause => Sequencer.pause s
  | Command.Stop => Sequencer.stop s
  | Command.ToggleMute now trackId => Sequencer.toggleMute now trackId s
  | Command.ToggleSolo now trackId => Sequencer.toggleSolo now trackId s
  | Command.SetTrackVolume now trackId volume =>
      Sequencer.setTrackVolume now trackId volume s
  | Command.ToggleStep now trackId stepIndex =>
      Sequencer.toggleStep now trackId stepIndex s
  | Command.SetStepVelocity now trackId stepIndex velocity =>
      Sequencer.setStepVelocity now trackId stepIndex velocity s
  | Command.Tick time beat => Sequencer._onSchedulerTick time beat s
  | Command.Destroy => Sequencer.destroy s
  end.

(** A sequence of calls, in order. *)
Definition run {Sch : Type} `{IScheduler.ops Sch} (cs : list Command.t)
    (s : Sequencer.t Sch) : Sequencer.t Sch :=
  fold_left (λ s c, exec c s) cs s.

(** The callback [play] hands to the scheduler:
    [(time, beat) => this._onSchedulerTick(time, beat)]. *)
Definition tickCallback {Sch : Type} `{IScheduler.ops Sch}
  : Scheduler.SchedulerCallback (Sequencer.t Sch) :=
  λ time beat s, Sequencer._onSchedulerTick time beat s.

(** A pattern of length 0, which no factory call produces but the type
    admits. *)
Definition emptyLengthPattern : Pattern.t :=
  Pattern.mk "zero" "Zero" [kickTrack] 0 (TimeSignature.mk 4 4) 0 0.

(** Every pattern the Sequencer holds has pairwise distinct track ids. *)
Definition uniqueIds {Sch : Type} (s : Sequencer.t Sch) : Prop :=
  ∀ p, Sequencer._pattern s = Some p → NoDup (trackIds p).

(** Case analysis over the bodies of the Sequencer's methods. *)
Ltac unfold_sequencer :=
  unfold Sequencer.setPattern, Sequencer.setTempo, Sequencer.play,
    Sequencer.pause, Sequencer.toggleMute, Sequencer.toggleSolo,
    Sequencer.setTrackVolume, Sequencer.toggleStep,
    Sequencer.setStepVelocity, Sequencer._onSchedulerTick,
    Sequencer.destroy, Sequencer.stop.

Ltac case_branches :=
  repeat match goal with
         | |- context [match ?x with _ => _ end] => destruct x eqn:?
         | |- context [if ?x then _ else _] => destruct x eqn:?
         end.

(** * Properties *)

Set Warnings "-clear-no-such-hyp".

(** ** Pattern model *)

Lemma flipActive_involutive (step : Step.t) : flipActive (flipActive step) = step.
Proof. destruct step as [a v]. unfold flipActive. simpl. by rewrite negb_involutive. Qed.

Lemma mapStepAt_involutive (f : Step.t → Step.t) (stepIdx : Z)
    (steps : list Step.t) :
  (∀ step, f (f step) = step) →
  mapStepAt f stepIdx (mapStepAt f stepIdx steps) = steps.
Proof.
  intros Hf. unfold mapStepAt. apply list_eq. intros k.
  rewrite !list_lookup_imap. destruct (steps !! k) as [step|]; simpl; [|done].
  destruct (Z.of_nat k =? stepIdx); by rewrite ?Hf.
Qed.

Lemma mapTrack_involutive (f : Track.t → Track.t) (trackId : string)
    (tracks : list Track.t) :
  (∀ track, Track.id (f track) = Track.id track) →
  (∀ track, f (f track) = track) →
  mapTrack f trackId (mapTrack f trackId tracks) = tracks.
Proof.
  intros Hid Hf. unfold mapTrack. induction tracks as [|track rest IH]; [done|].
  rewrite !fmap_cons, IH. f_equal.
  destruct (String.eqb (Track.id track) trackId) eqn:E.
  - by rewrite Hid, E, Hf.
  - by rewrite E.
Qed.

Lemma mapTrack_absent (f : Track.t → Track.t) (trackId : string)
    (tracks : list Track.t) :
  trackId ∉ Track.id <$> tracks → mapTrack f trackId tracks = tracks.
Proof.
  unfold mapTrack. induction tracks as [|track rest IH]; [done|].
  rewrite !fmap_cons, not_elem_of_cons. intros [Hne Hrest].
  rewrite IH by done. f_equal.
  destruct (String.eqb_spec (Track.id track) trackId); congruence.
Qed.

Lemma find_absent (trackId : string) (tracks : list Track.t) :
  trackId ∉ Track.id <$> tracks →
  List.find (λ t, String.eqb (Track.id t) trackId) tracks = None.
Proof.
  induction tracks as [|track rest IH]; [done|].
  rewrite fmap_cons, not_elem_of_cons. intros [Hne Hrest]. simpl.
  destruct (String.eqb_spec (Track.id track) trackId); [congruence|auto].
Qed.

(** C8 (toggling twice). Applying the pattern model's [toggleStep] twice with
    the same track id and step index gives back the pattern in every field
    except [modifiedAt], which holds the time of the second call: tracks,
    steps, active flags, velocities and the top-level fields are restored.
    This holds for every pattern, track id and index, so in particular for a
    track id present in the pattern and an index in range. *)
Theorem toggleStep_twice_restores (now1 now2 : Z) (p : Pattern.t)
    (t : string) (i : Z) :
  toggleStep now2 (toggleStep now1 p t i) t i = withModifiedAt now2 p ∧
  equalExceptModifiedAt (toggleStep now2 (toggleStep now1 p t i) t i) p.
Proof.
  assert (toggleStep now2 (toggleStep now1 p t i) t i = withModifiedAt now2 p)
    as Heq.
  { unfold toggleStep, withModifiedAt, withTracks. simpl. f_equal.
    apply mapTrack_involutive.
    - by intros [].
    - intros track. destruct track; unfold withSteps; simpl. f_equal.
      apply mapStepAt_involutive, flipActive_involutive. }
  split; [done|]. rewrite Heq. by destruct p.
Qed.

Lemma toggleStep_flips (now : Z) (p : Pattern.t) (k i : nat)
    (track : Track.t) (st : Step.t) :
  Pattern.tracks p !! k = Some track →
  Track.steps track !! i = Some st →
  ∃ track', Pattern.tracks (toggleStep now p (Track.id track) (Z.of_nat i)) !! k
              = Some track' ∧
            Track.steps track' !! i = Some (flipActive st).
Proof.
  intros Hk Hi. unfold toggleStep, withTracks, mapTrack. simpl.
  rewrite list_lookup_fmap, Hk. simpl. rewrite String.eqb_refl.
  eexists. split; [done|]. unfold withSteps, mapStepAt. simpl.
  rewrite list_lookup_imap, Hi. simpl. by rewrite Z.eqb_refl.
Qed.

(** ** Tick handling *)

Section TickProperties.
Context {Sch : Type} `{IScheduler.ops Sch}.
Implicit Types (s : Sequencer.t Sch) (p : Pattern.t) (A : Track.t).

Lemma processTracks_voices (h : bool) (time : Q) (step : JsInt)
    (tracks : list Track.t) (e : AudioEngine.t) :
  AudioEngine.playedVoices (Sequencer.processTracks h time step tracks e) =
  AudioEngine.playedVoices e ++ omap (Sequencer.trackVoice h time step) tracks.
Proof.
  revert e. induction tracks as [|track rest IH]; intros e; simpl.
  - by rewrite app_nil_r.
  - rewrite IH. destruct (Sequencer.trackVoice h time step track); simpl.
    + by rewrite <- app_assoc.
    + done.
Qed.

Lemma status_playing s :
  Sequencer.status s = Sequencer.playing ↔
  Sequencer.isPlaying (Sequencer._transportState s) = true.
Proof.
  unfold Sequencer.status, Sequencer.isPlaying.
  destruct (Sequencer.getPlaybackStatus _); split; congruence.
Qed.

Lemma tick_playing (time beat : Q) s p :
  Sequencer._pattern s = Some p →
  Sequencer.status s = Sequencer.playing →
  let step := Sequencer.stepOfBeat (Sequencer._config s) (Pattern.length p) beat in
  Sequencer.currentStep (Sequencer._onSchedulerTick time beat s) = step ∧
  voices (Sequencer._onSchedulerTick time beat s) =
    voices s ++
    omap (Sequencer.trackVoice (Sequencer.hasSoloedTracks s) time step)
      (Pattern.tracks p).
Proof.
  intros Hp Hs step. apply status_playing in Hs.
  unfold Sequencer._onSchedulerTick, voices. rewrite Hp, Hs. simpl.
  split; [done|]. apply processTracks_voices.
Qed.

Lemma omap_delete {A B : Type} (f : A → option B) (l : list A) (k : nat) (x : A) :
  l !! k = Some x → f x = None → omap f l = omap f (delete k l).
Proof.
  intros Hk Hx. rewrite <- (take_drop_middle l k x Hk) at 1.
  rewrite delete_take_drop, !omap_app. simpl. by rewrite Hx.
Qed.

(** C9 (ticks outside playback). When the transport status is not [playing]
    (stopped or paused), a call of the tick handler returns the Sequencer
    unchanged: no voice command is issued and the current-step cursor keeps
    its value. *)
Theorem tick_ignored_unless_playing (time beat : Q) s :
  Sequencer.status s ≠ Sequencer.playing →
  Sequencer._onSchedulerTick time beat s = s ∧
  voices (Sequencer._onSchedulerTick time beat s) = voices s ∧
  Sequencer.currentStep (Sequencer._onSchedulerTick time beat s) =
    Sequencer.currentStep s.
Proof.
  intros Hs.
  assert (Sequencer._onSchedulerTick time beat s = s) as Heq.
  { unfold Sequencer._onSchedulerTick. destruct (Sequencer._pattern s); [|done].
    destruct (Sequencer.isPlaying _) eqn:E; [|done].
    by apply status_playing in E. }
  by rewrite Heq.
Qed.

(** C5 (mute precedence). On a playing tick, the loop iteration of a muted
    track [A] issues no voice command, whatever the step, the solo-set and
    [A]'s own [soloed] flag are; the commands of the tick are those of the
    other tracks. *)
Theorem mute_precedence (time beat : Q) s p (k : nat) A :
  Sequencer._pattern s = Some p →
  Sequencer.status s = Sequencer.playing →
  Pattern.tracks p !! k = Some A →
  Track.muted A = true →
  let step := Sequencer.stepOfBeat (Sequencer._config s) (Pattern.length p) beat in
  let fire := Sequencer.trackVoice (Sequencer.hasSoloedTracks s) time step in
  fire A = None ∧
  voices (Sequencer._onSchedulerTick time beat s) =
    voices s ++ omap fire (delete k (Pattern.tracks p)).
Proof.
  intros Hp Hs Hk Hm step fire.
  assert (fire A = None) as HA.
  { unfold fire, Sequencer.trackVoice. by rewrite Hm. }
  split; [done|].
  destruct (tick_playing time beat s p Hp Hs) as [_ ->].
  f_equal. by apply omap_delete with A.
Qed.

Lemma array_get_past_end {A : Type} (arr : list A) (z : Z) :
  Z.of_nat (length arr) <= z → array_get arr (Int z) = None.
Proof.
  intros Hz. unfold array_get. destruct (z <? 0) eqn:E; [done|].
  apply lookup_ge_None. lia.
Qed.

(** C10 (missing step). On a playing tick, a track [A] whose [steps] array
    has no element at the computed step ([steps[step]] is [undefined]) is
    skipped: its iteration issues no command, exactly as it would if the step
    were there and inactive, and the loop goes on: the commands of the tick
    are those of the tracks before [A] followed by those of the tracks after
    it. The handler is a total function: nothing is thrown. *)
Theorem missing_step_is_skipped (time beat : Q) s p (k : nat) A :
  Sequencer._pattern s = Some p →
  Sequencer.status s = Sequencer.playing →
  Pattern.tracks p !! k = Some A →
  let step := Sequencer.stepOfBeat (Sequencer._config s) (Pattern.length p) beat in
  let fire := Sequencer.trackVoice (Sequencer.hasSoloedTracks s) time step in
  array_get (Track.steps A) step = None →
  fire A = None ∧
  voices (Sequencer._onSchedulerTick time beat s) =
    voices s ++ omap fire (take k (Pattern.tracks p))
             ++ omap fire (drop (S k) (Pattern.tracks p)) ∧
  ∀ steps' st, array_get steps' step = Some st → Step.active st = false →
    fire (withSteps steps' A) = fire A.
Proof.
  intros Hp Hs Hk step fire Hget.
  assert (fire A = None) as HA.
  { unfold fire, Sequencer.trackVoice. rewrite Hget.
    destruct (Track.muted A); [done|]. by destruct (_ && _). }
  split; [done|]. split.
  - destruct (tick_playing time beat s p Hp Hs) as [_ ->].
    f_equal. fold step. fold fire. rewrite (omap_delete fire _ k A Hk HA).
    by rewrite delete_take_drop, omap_app.
  - intros steps' st Hst Hact. rewrite HA.
    unfold fire, Sequencer.trackVoice. simpl. rewrite Hst, Hact. simpl.
    destruct (Track.muted A); [done|]. by destruct (_ && _).
Qed.

Lemma gainValue_bounds (x : Q) : unitInterval (gainValue x).
Proof.
  unfold unitInterval, gainValue.
  destruct (Q.max_spec 0 (Qmin 1 x)) as [[? ->]|[? ->]];
    destruct (Q.min_spec 1 x) as [[? E]|[? E]]; rewrite ?E in *; split; lra.
Qed.




(** C7 (loop wrap). On a playing tick at beat position [beat] with a pattern
    of length [L], the current-step cursor is set to
    [floor(beat * stepsPerBeat) % L] and the tracks are read at that same
    step. For [L] other than 0 this is the truncated remainder, which is
    [floor(beat * stepsPerBeat) mod L] for a non-negative beat position and a
    positive length; a pattern of length 16 at beat 4 with 4 steps per beat
    (step 16 of the sequence) gives current step 0. *)
Theorem loop_wrap (time beat : Q) s p :
  Sequencer._pattern s = Some p →
  Sequencer.status s = Sequencer.playing →
  let stepInSequence :=
    Qfloor (beat * Sequencer.stepsPerBeat (Sequencer._config s)) in
  let L := Pattern.length p in
  let step := Sequencer.currentStep (Sequencer._onSchedulerTick time beat s) in
  step = js_rem stepInSequence L ∧
  voices (Sequencer._onSchedulerTick time beat s) =
    voices s ++
    omap (Sequencer.trackVoice (Sequencer.hasSoloedTracks s) time step)
      (Pattern.tracks p) ∧
  (L ≠ 0 → step = Int (Z.rem stepInSequence L)) ∧
  (0 <= stepInSequence → 0 < L → step = Int (stepInSequence mod L)) ∧
  (L = 16 → (beat == 4)%Q →
   (Sequencer.stepsPerBeat (Sequencer._config s) == 4)%Q → step = Int 0).
Proof.
  intros Hp Hs stepInSequence L step.
  destruct (tick_playing time beat s p Hp Hs) as [Hstep Hvoices].
  assert (step = js_rem stepInSequence L) as E by apply Hstep.
  split; [done|]. split; [rewrite Hvoices, E; reflexivity|].
  rewrite E. unfold js_rem. repeat split.
  - intros HL. apply Z.eqb_neq in HL. by rewrite HL.
  - intros Hnn HL. assert ((L =? 0) = false) as -> by lia.
    f_equal. apply Z.rem_mod_nonneg; lia.
  - intros HL Hb Hspb. rewrite HL. simpl. f_equal.
    unfold stepInSequence. by rewrite Hb, Hspb.
Qed.

End TickProperties.

(** ** Editing *)

Section EditProperties.
Context {Sch : Type} `{IScheduler.ops Sch}.
Implicit Types (s : Sequencer.t Sch) (p : Pattern.t).

Lemma set_pattern_same s : Sequencer.set_pattern (Sequencer._pattern s) s = s.
Proof. by destruct s. Qed.

Lemma withTracks_same (now : Z) p :
  withTracks (Pattern.tracks p) now p = withModifiedAt now p.
Proof. done. Qed.

(** The Sequencer's [toggleStep] stores what the pattern model's [toggleStep]
    computes from the held pattern. *)
Lemma Sequencer_toggleStep_model (now : Z) (t : string) (i : Z) s p :
  Sequencer._pattern s = Some p →
  Sequencer.toggleStep now t i s =
    Sequencer.set_pattern (Some (toggleStep now p t i)) s.
Proof. intros Hp. unfold Sequencer.toggleStep. by rewrite Hp. Qed.

(** C4, amended (editing an unknown track). When [t] is not the id of a track
    of the held pattern, [toggleStep], [setStepVelocity], [setTrackVolume] and
    [toggleMute] change nothing in the Sequencer except the held pattern's
    [modifiedAt], which becomes the time of the call (tracks and every other
    field of the pattern stay as they are); [toggleSolo] changes nothing at
    all; and when no pattern is loaded all five leave the Sequencer
    unchanged. *)
Theorem unknown_track_edits (now : Z) (t : string) (i : Z) (v : Q) s :
  (∀ p, Sequencer._pattern s = Some p → t ∉ trackIds p) →
  let refreshed :=
    Sequencer.set_pattern (withModifiedAt now <$> Sequencer._pattern s) s in
  Sequencer.toggleStep now t i s = refreshed ∧
  Sequencer.setStepVelocity now t i v s = refreshed ∧
  Sequencer.setTrackVolume now t v s = refreshed ∧
  Sequencer.toggleMute now t s = refreshed ∧
  Sequencer.toggleSolo now t s = s ∧
  (Sequencer._pattern s = None → refreshed = s).
Proof.
  intros Habsent refreshed. subst refreshed.
  unfold Sequencer.toggleStep, Sequencer.setStepVelocity,
    Sequencer.setTrackVolume, Sequencer.toggleMute, Sequencer.toggleSolo.
  destruct (Sequencer._pattern s) as [p|] eqn:Hp; simpl.
  - specialize (Habsent p eq_refl). unfold trackIds in Habsent.
    rewrite !mapTrack_absent, find_absent by done.
    repeat split; done.
  - rewrite <- Hp, set_pattern_same. repeat split; done.
Qed.

End EditProperties.

(** ** The solo-set *)

Lemma soloedIdsOf_cons (a : Track.t) (rest : list Track.t) :
  soloedIdsOf (a :: rest) =
  if Track.soloed a then {[ Track.id a ]} ∪ soloedIdsOf rest
  else soloedIdsOf rest.
Proof.
  unfold soloedIdsOf. rewrite filter_cons.
  by destruct (Track.soloed a) eqn:E; case_decide.
Qed.

Lemma soloedIdsOf_subseteq (tracks : list Track.t) (x : string) :
  x ∈ soloedIdsOf tracks → x ∈ Track.id <$> tracks.
Proof.
  induction tracks as [|a rest IH]; [set_solver|].
  rewrite soloedIdsOf_cons, fmap_cons. destruct (Track.soloed a); set_solver.
Qed.

Lemma soloedIdsOf_elem (tracks : list Track.t) (k : nat) (A : Track.t) :
  tracks !! k = Some A → Track.soloed A = true → Track.id A ∈ soloedIdsOf tracks.
Proof.
  intros Hk HA. unfold soloedIdsOf. apply elem_of_list_to_set.
  apply list_elem_of_fmap. exists A. split; [done|].
  apply list_elem_of_filter. split; [done|]. by apply list_elem_of_lookup_2 with k.
Qed.

Lemma soloedIdsOf_toggle (trackId : string) (tracks : list Track.t)
    (track : Track.t) :
  NoDup (Track.id <$> tracks) →
  List.find (λ t, String.eqb (Track.id t) trackId) tracks = Some track →
  soloedIdsOf (mapTrack flipSoloed trackId tracks) =
  if Track.soloed track then soloedIdsOf tracks ∖ {[ trackId ]}
  else {[ trackId ]} ∪ soloedIdsOf tracks.
Proof.
  induction tracks as [|a rest IH]; [done|].
  rewrite fmap_cons, NoDup_cons. intros [Ha Hnd]. cbn [List.find].
  unfold mapTrack. rewrite fmap_cons. fold (mapTrack flipSoloed trackId rest).
  destruct (String.eqb_spec (Track.id a) trackId) as [Heq|Hne].
  - intros [= <-]. rewrite mapTrack_absent by congruence.
    assert (trackId ∉ soloedIdsOf rest) as Hout.
    { intros Hin. apply soloedIdsOf_subseteq in Hin. congruence. }
    rewrite !soloedIdsOf_cons. simpl. rewrite Heq.
    destruct (Track.soloed a); simpl; set_solver.
  - intros Hfind. specialize (IH Hnd Hfind).
    rewrite !soloedIdsOf_cons, IH.
    destruct (Track.soloed a), (Track.soloed track); set_solver.
Qed.

Section SoloProperties.
Context {Sch : Type} `{IScheduler.ops Sch}.
Implicit Types (s : Sequencer.t Sch) (p : Pattern.t).

Lemma soloInSync_create (e : AudioEngine.t) (sch : Sch)
    (config : Sequencer.SequencerConfig) :
  soloInSync (Sequencer.create e sch config).
Proof. done. Qed.

Lemma soloInSync_toggleSolo (now : Z) (trackId : string) s :
  (∀ p, Sequencer._pattern s = Some p → NoDup (trackIds p)) →
  soloInSync s → soloInSync (Sequencer.toggleSolo now trackId s).
Proof.
  unfold soloInSync, Sequencer.toggleSolo. intros Hnd Hsync.
  destruct (Sequencer._pattern s) as [p|] eqn:Hp; [|by rewrite Hp].
  destruct (List.find _ _) as [track|] eqn:Hfind; [|by rewrite Hp].
  simpl. rewrite Hsync. symmetry.
  apply soloedIdsOf_toggle; [by apply Hnd|done].
Qed.

Lemma soloedIdsOf_mapTrack (f : Track.t → Track.t) (trackId : string)
    (tracks : list Track.t) :
  (∀ t, Track.id (f t) = Track.id t) →
  (∀ t, Track.soloed (f t) = Track.soloed t) →
  soloedIdsOf (mapTrack f trackId tracks) = soloedIdsOf tracks.
Proof.
  intros Hid Hsolo. induction tracks as [|a rest IH]; [done|].
  unfold mapTrack. rewrite fmap_cons. fold (mapTrack f trackId rest).
  rewrite !soloedIdsOf_cons, IH.
  destruct (String.eqb _ _); by rewrite ?Hid, ?Hsolo.
Qed.

Lemma soloInSync_toggleMute (now : Z) (trackId : string) s :
  soloInSync s → soloInSync (Sequencer.toggleMute now trackId s).
Proof.
  unfold soloInSync, Sequencer.toggleMute.
  destruct (Sequencer._pattern s) as [p|] eqn:Hp; [|by rewrite Hp].
  simpl. intros ->. symmetry. by apply soloedIdsOf_mapTrack.
Qed.

Lemma soloInSync_setTrackVolume (now : Z) (trackId : string) (v : Q) s :
  soloInSync s → soloInSync (Sequencer.setTrackVolume now trackId v s).
Proof.
  unfold soloInSync, Sequencer.setTrackVolume.
  destruct (Sequencer._pattern s) as [p|] eqn:Hp; [|by rewrite Hp].
  simpl. intros ->. symmetry. by apply soloedIdsOf_mapTrack.
Qed.

Lemma soloInSync_toggleStep (now : Z) (trackId : string) (i : Z) s :
  soloInSync s → soloInSync (Sequencer.toggleStep now trackId i s).
Proof.
  unfold soloInSync, Sequencer.toggleStep.
  destruct (Sequencer._pattern s) as [p|] eqn:Hp; [|by rewrite Hp].
  simpl. intros ->. symmetry. by apply soloedIdsOf_mapTrack.
Qed.

Lemma soloInSync_setStepVelocity (now : Z) (trackId : string) (i : Z) (v : Q) s :
  soloInSync s → soloInSync (Sequencer.setStepVelocity now trackId i v s).
Proof.
  unfold soloInSync, Sequencer.setStepVelocity.
  destruct (Sequencer._pattern s) as [p|] eqn:Hp; [|by rewrite Hp].
  simpl. intros ->. symmetry. by apply soloedIdsOf_mapTrack.
Qed.

Lemma soloInSync_transport s :
  soloInSync s →
  soloInSync (Sequencer.play s) ∧ soloInSync (Sequencer.pause s) ∧
  soloInSync (Sequencer.stop s) ∧ soloInSync (Sequencer.destroy s) ∧
  ∀ newTempo, soloInSync (Sequencer.setTempo newTempo s).
Proof.
  unfold soloInSync, Sequencer.play, Sequencer.pause, Sequencer.stop,
    Sequencer.destroy, Sequencer.setTempo.
  intros Hsync. repeat split; try done.
  - destruct (Sequencer.isPlaying _); [done|].
    destruct (Sequencer._pattern s) eqn:Hp; simpl; by rewrite ?Hp.
  - by destruct (negb _).
Qed.

Lemma soloInSync_tick (time beat : Q) s :
  soloInSync s → soloInSync (Sequencer._onSchedulerTick time beat s).
Proof.
  unfold soloInSync, Sequencer._onSchedulerTick. intros Hsync.
  destruct (Sequencer._pattern s) as [p|] eqn:Hp; [|by rewrite Hp].
  destruct (negb _); simpl; by rewrite Hp.
Qed.

Lemma solo_isolation_in_sync (time beat : Q) s p (k : nat) (A : Track.t) :
  soloInSync s →
  Sequencer._pattern s = Some p →
  Sequencer.status s = Sequencer.playing →
  Sequencer._soloedTracks s ≠ ∅ →
  Pattern.tracks p !! k = Some A →
  Track.id A ∉ Sequencer._soloedTracks s →
  let step := Sequencer.stepOfBeat (Sequencer._config s) (Pattern.length p) beat in
  let fire := Sequencer.trackVoice (Sequencer.hasSoloedTracks s) time step in
  fire A = None ∧
  voices (Sequencer._onSchedulerTick time beat s) =
    voices s ++ omap fire (delete k (Pattern.tracks p)).
Proof.
  intros Hsync Hp Hs Hne Hk Hout step fire.
  assert (Sequencer.hasSoloedTracks s = true) as Hhas.
  { unfold Sequencer.hasSoloedTracks. apply bool_decide_eq_true.
    apply Nat.neq_0_lt_0. apply size_non_empty_iff. by intros ?%leibniz_equiv. }
  assert (Track.soloed A = false) as Hsolo.
  { destruct (Track.soloed A) eqn:E; [|done]. exfalso. apply Hout.
    unfold soloInSync in Hsync. rewrite Hsync, Hp. simpl.
    by apply soloedIdsOf_elem with k. }
  assert (fire A = None) as HA.
  { unfold fire, Sequencer.trackVoice. rewrite Hhas, Hsolo.
    by destruct (Track.muted A). }
  split; [done|].
  destruct (tick_playing time beat s p Hp Hs) as [_ ->].
  f_equal. by apply omap_delete with A.
Qed.

End SoloProperties.

(** ** Scheduler timing in exact arithmetic *)

Section SchedulerTiming.
Local Open Scope Q_scope.

Lemma gridTime_succ (t0 st : Q) (k : nat) :
  gridTime t0 st (S k) == gridTime t0 st k + st.
Proof.
  unfold gridTime. rewrite Nat2Z.inj_succ. unfold Z.succ.
  rewrite inject_Z_plus. ring.
Qed.

Lemma onGrid_snoc (t0 st : Q) (times : list Q) (t : Q) :
  onGrid t0 st times → t == gridTime t0 st (length times) →
  onGrid t0 st (times ++ [t]).
Proof.
  intros Hgrid Ht k t' Hk.
  destruct (decide (k < length times)%nat) as [Hlt|Hge].
  - rewrite lookup_app_l in Hk by done. by apply Hgrid.
  - rewrite lookup_app_r in Hk by lia.
    destruct (k - length times)%nat as [|n] eqn:E; simpl in Hk; [|done].
    injection Hk as <-. replace k with (length times) by lia. done.
Qed.

Lemma onGrid_consecutive (t0 st : Q) (times : list Q) (k : nat) (t t' : Q) :
  onGrid t0 st times →
  times !! k = Some t → times !! S k = Some t' → t' - t == st.
Proof.
  intros Hgrid Hk Hk'. rewrite (Hgrid _ _ Hk), (Hgrid _ _ Hk'), gridTime_succ.
  ring.
Qed.

Lemma sixteenth_eq (b : Q) : ¬ b == 0 → 60 / b / 4 == 60 / (4 * b).
Proof. intros Hb. field. done. Qed.

Lemma sixteenth_pos (b : Q) : 60 <= b → 0 < 60 / (4 * b).
Proof.
  intros Hb. apply Qlt_shift_div_l; lra.
Qed.

Lemma Timing_start (t0 b la interval : Q) :
  Timing t0 b la
    (Scheduler.start Scheduler.recordTime t0
       (Scheduler.create b (Scheduler.mkConfig la interval))) [].
Proof.
  split; try done.
  simpl. unfold gridTime. simpl. ring.
Qed.

Lemma Timing_advance (t0 b la : Q) s times :
  ¬ b == 0 →
  Timing t0 b la s times →
  Timing t0 b la (Scheduler._advanceNote s)
    (Scheduler.recordTime (Scheduler._nextNoteTime s)
       (Scheduler._currentBeat s) times).
Proof.
  intros Hb [Hbpm Hcb Hrun Hla Hnext Hgrid]. split; simpl; try done.
  - unfold Scheduler.recordTime. rewrite length_app, Nat.add_1_r. simpl.
    rewrite gridTime_succ, Hbpm, Hnext, sixteenth_eq by done. reflexivity.
  - by apply onGrid_snoc.
Qed.

Lemma scheduleWhile_enough (t0 b la endT : Q) (fuel : nat) s times :
  60 <= b →
  Timing t0 b la s times →
  endT - Scheduler._nextNoteTime s <= inject_Z (Z.of_nat fuel) * (60 / (4 * b)) →
  ∃ s' times',
    Scheduler.scheduleWhile fuel endT Scheduler.recordTime s times
      = Some (s', times') ∧
    Timing t0 b la s' times' ∧ endT <= Scheduler._nextNoteTime s'.
Proof.
  intros Hb. assert (¬ b == 0) as Hb0 by lra.
  pose proof (sixteenth_pos b Hb) as Hpos.
  revert s times. induction fuel as [|fuel IH]; intros s times HT Hfuel; simpl.
  - destruct (Qlt_le_dec _ _) as [Hlt|Hle].
    + exfalso. change (inject_Z (Z.of_nat 0)) with 0 in Hfuel.
      rewrite Qmult_0_l in Hfuel. lra.
    + eauto.
  - destruct (Qlt_le_dec _ _) as [Hlt|Hle]; [|eauto].
    apply IH; [by apply Timing_advance|].
    simpl. rewrite (timing_bpm _ _ _ _ _ HT).
    pose proof (sixteenth_eq b Hb0) as Hst.
    rewrite Nat2Z.inj_succ in Hfuel. unfold Z.succ in Hfuel.
    rewrite inject_Z_plus in Hfuel.
    set (st := 60 / (4 * b)) in *. set (st' := 60 / b / 4) in *.
    change (inject_Z 1) with 1 in Hfuel. lra.
Qed.

Lemma scheduleWhile_mono {W : Type} (fuel fuel' : nat) (endT : Q)
    (cb : Scheduler.SchedulerCallback W) (s : Scheduler.t W) (w : W)
    (r : Scheduler.t W * W) :
  (fuel ≤ fuel')%nat →
  Scheduler.scheduleWhile fuel endT cb s w = Some r →
  Scheduler.scheduleWhile fuel' endT cb s w = Some r.
Proof.
  revert fuel' s w. induction fuel as [|fuel IH]; intros fuel' s w Hle; simpl.
  - destruct (Qlt_le_dec _ _) as [Hlt|Hge] eqn:E; [done|].
    intros <-. destruct fuel'; simpl; by rewrite E.
  - destruct (Qlt_le_dec _ _) as [Hlt|Hge] eqn:E.
    + destruct fuel' as [|fuel']; [lia|]. simpl. rewrite E.
      apply IH. lia.
    + intros <-. destruct fuel'; simpl; by rewrite E.
Qed.

Lemma scheduleLoop_mono {W : Type} (fuel fuel' : nat) (now : Q)
    (s : Scheduler.t W) (w : W) (r : Scheduler.t W * W) :
  (fuel ≤ fuel')%nat →
  Scheduler._scheduleLoop fuel now s w = Some r →
  Scheduler._scheduleLoop fuel' now s w = Some r.
Proof.
  intros Hle. unfold Scheduler._scheduleLoop.
  destruct (Scheduler._callback s); [|done].
  destruct (negb _); [done|]. by apply scheduleWhile_mono.
Qed.

Lemma runPolls_mono {W : Type} (fuel fuel' : nat) (polls : list Q)
    (s : Scheduler.t W) (w : W) (r : Scheduler.t W * W) :
  (fuel ≤ fuel')%nat →
  Scheduler.runPolls fuel polls s w = Some r →
  Scheduler.runPolls fuel' polls s w = Some r.
Proof.
  intros Hle. revert s w. induction polls as [|now polls IH]; intros s w; simpl;
    [done|].
  destruct (Scheduler._scheduleLoop fuel now s w) as [[s' w']|] eqn:E; [|done].
  rewrite (scheduleLoop_mono fuel fuel' now s w (s', w') Hle E). apply IH.
Qed.

Lemma enough_fuel (x st : Q) :
  0 < st → ∃ fuel : nat, x <= inject_Z (Z.of_nat fuel) * st.
Proof.
  intros Hst. exists (Z.to_nat (Qceiling (x / st))).
  assert (x / st <= inject_Z (Z.of_nat (Z.to_nat (Qceiling (x / st))))) as Hc.
  { eapply Qle_trans; [apply Qle_ceiling|].
    rewrite <- Zle_Qle. lia. }
  apply Qle_trans with (x / st * st).
  - apply Qle_lteq. right. field. lra.
  - apply Qmult_le_compat_r; [done|lra].
Qed.

Lemma scheduleLoop_terminates (t0 b la now : Q) s times :
  60 <= b →
  Timing t0 b la s times →
  ∃ fuel s' times',
    Scheduler._scheduleLoop fuel now s times = Some (s', times') ∧
    Timing t0 b la s' times' ∧ now + la <= Scheduler._nextNoteTime s'.
Proof.
  intros Hb HT.
  destruct (enough_fuel (now + la - Scheduler._nextNoteTime s) (60 / (4 * b)))
    as [fuel Hfuel]; [by apply sixteenth_pos|].
  exists fuel. unfold Scheduler._scheduleLoop.
  pose proof HT as [Hbpm Hcb Hrun Hla Hnext Hgrid]. rewrite Hcb, Hrun, Hla.
  simpl. by apply (scheduleWhile_enough t0 b la).
Qed.

Lemma runPolls_terminates (t0 b la : Q) (polls : list Q) s times :
  60 <= b →
  Timing t0 b la s times →
  ∃ fuel s' times',
    Scheduler.runPolls fuel polls s times = Some (s', times') ∧
    Timing t0 b la s' times' ∧
    (∀ now, last polls = Some now → now + la <= Scheduler._nextNoteTime s').
Proof.
  intros Hb. revert s times.
  induction polls as [|now polls IH]; intros s times HT.
  - exists 0%nat, s, times. split; [done|]. split; [done|]. intros now [=].
  - destruct (scheduleLoop_terminates t0 b la now s times Hb HT)
      as (f1 & s1 & times1 & Hrun1 & HT1 & Hcov1).
    destruct (IH s1 times1 HT1) as (f2 & s2 & times2 & Hrun2 & HT2 & Hcov2).
    exists (f1 `max` f2)%nat, s2, times2. split; [|split; [done|]].
    + simpl.
      rewrite (scheduleLoop_mono f1 _ now s times (s1, times1)); [|lia|done].
      apply runPolls_mono with f2; [lia|done].
    + intros now'. destruct polls as [|now2 polls]; [|by apply Hcov2].
      simpl. intros [= <-]. simpl in Hrun2. by injection Hrun2 as <- <-.
Qed.

(** The schedule in exact arithmetic, that is with the sums of
    [_advanceNote] carried out without rounding. Take a tempo [b] in
    [60,200], held fixed, and a scheduler started at audio time [t0]. Run it
    through any list of timer firings [polls], at any audio times. Given
    enough fuel every firing returns, and the times passed to the tick
    callback lie, in order, on the arithmetic sequence
    [t0, t0 + 60/(4b), t0 + 2*60/(4b), ...]. This is the schedule the
    binary64 sums of the source approximate; what the source computes is the
    subject of the next section. *)
Theorem exact_arithmetic_schedule (b lookahead interval t0 : Q)
    (polls : list Q) :
  60 <= b → b <= 200 →
  let s0 :=
    Scheduler.start Scheduler.recordTime t0
      (Scheduler.create b (Scheduler.mkConfig lookahead interval)) in
  ∃ (fuel0 : nat) (s' : Scheduler.t (list Q)) (times : list Q),
    (∀ fuel, (fuel0 ≤ fuel)%nat →
       Scheduler.runPolls fuel polls s0 [] = Some (s', times)) ∧
    (∀ k t t', times !! k = Some t → times !! S k = Some t' →
       t' - t == 60 / (4 * b)) ∧
    (∀ k t, times !! k = Some t →
       t == t0 + inject_Z (Z.of_nat k) * (60 / (4 * b))) ∧
    Scheduler._nextNoteTime s' ==
      t0 + inject_Z (Z.of_nat (length times)) * (60 / (4 * b)) ∧
    (∀ now, last polls = Some now →
       now + lookahead <= Scheduler._nextNoteTime s').
Proof.
  intros Hlo Hhi s0.
  destruct (runPolls_terminates t0 b lookahead polls s0 [] Hlo
              (Timing_start t0 b lookahead interval))
    as (fuel0 & s' & times & Hrun & HT & Hcov).
  exists fuel0, s', times. destruct HT as [_ _ _ _ Hnext Hgrid].
  split; [|split; [|split; [|split]]]; try done.
  - intros fuel Hle. by apply runPolls_mono with fuel0.
  - intros k t t'. by apply (onGrid_consecutive t0).
Qed.

End SchedulerTiming.

(** ** Scheduler timing in binary64 *)

Section Binary64Timing.
Implicit Types (s : Scheduler64.t (list float)) (times : list float).

Lemma Timing64_start (t0 b la interval : float) :
  Timing64 t0 b la
    (Scheduler64.start Scheduler64.recordTime t0
       (Scheduler64.create b (Scheduler64.mkConfig la interval))) [].
Proof. by split. Qed.

Lemma Timing64_advance (t0 b la : float) s times beat :
  Timing64 t0 b la s times →
  Timing64 t0 b la (Scheduler64._advanceNote s)
    (Scheduler64.recordTime (Scheduler64._nextNoteTime s) beat times).
Proof.
  intros [Hbpm Hcb Hrun Hla Hnext Htimes]. unfold Scheduler64.recordTime.
  split; try done.
  - rewrite length_app, Nat.add_1_r. simpl. by rewrite Hbpm, Hnext.
  - intros k t Hk. destruct (decide (k < length times)%nat) as [Hlt|Hge].
    + rewrite lookup_app_l in Hk by done. by apply Htimes.
    + rewrite lookup_app_r in Hk by lia.
      destruct (k - length times)%nat as [|n] eqn:E; simpl in Hk; [|done].
      injection Hk as <-. replace k with (length times) by lia. done.
Qed.

Lemma scheduleWhile_Timing64 (t0 b la : float) (fuel : nat) (endT : float)
    s times :
  Timing64 t0 b la s times →
  let run :=
    Scheduler64.scheduleWhile fuel endT Scheduler64.recordTime s times in
  Timing64 t0 b la run.1.1 run.1.2 ∧
  (run.2 = Scheduler64.Returned →
   (Scheduler64._nextNoteTime run.1.1 <? endT)%float = false).
Proof.
  revert s times. induction fuel as [|fuel IH]; intros s times HT; simpl.
  - by destruct (_ <? _)%float eqn:E.
  - destruct (_ <? _)%float eqn:E; [|done]. by apply IH, Timing64_advance.
Qed.

Lemma scheduleLoop_Timing64 (t0 b la : float) (fuel : nat) (now : float)
    s times :
  Timing64 t0 b la s times →
  let run := Scheduler64._scheduleLoop fuel now s times in
  Timing64 t0 b la run.1.1 run.1.2 ∧
  (run.2 = Scheduler64.Returned →
   (Scheduler64._nextNoteTime run.1.1 <? now + la)%float = false).
Proof.
  intros HT. unfold Scheduler64._scheduleLoop.
  rewrite (timing64_callback _ _ _ _ _ HT), (timing64_running _ _ _ _ _ HT),
    (timing64_lookahead _ _ _ _ _ HT).
  simpl. by apply scheduleWhile_Timing64.
Qed.

Lemma runPolls_Timing64 (t0 b la : float) (fuel : nat) (polls : list float)
    s times :
  Timing64 t0 b la s times →
  let run := Scheduler64.runPolls fuel polls s times in
  Timing64 t0 b la run.1.1 run.1.2 ∧
  (∀ now, run.2 = Scheduler64.Returned → last polls = Some now →
     (Scheduler64._nextNoteTime run.1.1 <? now + la)%float = false).
Proof.
  revert s times. induction polls as [|now polls IH]; intros s times HT.
  - simpl. split; [done|]. by intros now _ [=].
  - destruct (scheduleLoop_Timing64 t0 b la fuel now s times HT)
      as [HT1 Hwin1].
    simpl. destruct (Scheduler64._scheduleLoop fuel now s times)
      as [[s1 times1] []] eqn:E1; simpl in *.
    + destruct (IH s1 times1 HT1) as [HT2 Hwin2]. split; [done|].
      intros now' Hret. destruct polls as [|now2 polls]; [|by apply Hwin2].
      simpl. intros [= <-]. by apply Hwin1.
    + split; [done|]. by intros now' [=].
Qed.

(** C1 (tempo-to-interval law), amended. Take any tempo [b], held fixed, and
    a scheduler started at audio time [t0]. Run it through any list of timer
    firings [polls], at any audio times, for any number of loop iterations
    [fuel]. Each time passed to the tick callback after the first is the
    binary64 sum of the time passed before it and the step [60 / b / 4]: the
    [k]-th time is [t0] with the step added [k] times, each sum rounded,
    whatever the polling times are and however many ticks one firing
    flushes. The next note time continues the same sequence, and when the
    last firing has returned it is not before the end of that firing's
    lookahead window. Two consecutive times differ by the step up to the
    rounding of one sum, not exactly. *)
Theorem tick_times_binary64 (b lookahead interval t0 : float)
    (polls : list float) (fuel : nat) :
  let s0 :=
    Scheduler64.start Scheduler64.recordTime t0
      (Scheduler64.create b (Scheduler64.mkConfig lookahead interval)) in
  let run := Scheduler64.runPolls fuel polls s0 [] in
  let times := run.1.2 in
  (∀ k t t', times !! k = Some t → times !! S k = Some t' →
     t' = (t + 60 / b / 4)%float) ∧
  (∀ k t, times !! k = Some t → t = tickTime64 t0 b k) ∧
  Scheduler64._nextNoteTime run.1.1 = tickTime64 t0 b (length times) ∧
  (∀ now, run.2 = Scheduler64.Returned → last polls = Some now →
     (Scheduler64._nextNoteTime run.1.1 <? now + lookahead)%float = false).
Proof.
  intros s0 run times.
  destruct (runPolls_Timing64 t0 b lookahead fuel polls s0 []
              (Timing64_start t0 b lookahead interval))
    as [[_ _ _ _ Hnext Htimes] Hwin].
  split; [|done].
  intros k t t' Hk Hk'.
  by rewrite (Htimes _ _ Hk), (Htimes _ _ Hk').
Qed.

End Binary64Timing.

(** C1 as stated fails. At 120 BPM the step [60/(4*120)] is 0.125 s. Start
    the scheduler when the audio clock reads the binary64 value of 1/3 and
    fire the timer at 0.375 s, 0.5 s and 0.75 s: five times are passed to
    the callback. The second and the third differ by [0.125 - 2^-54], as
    exact numbers and as computed by binary64 subtraction, and not by
    0.125. *)
Lemma tick_difference_is_rounded :
  ∃ s' (t0 t1 t2 : float) (rest : list float) (x1 x2 : Q),
    Scheduler64.runPolls 8 [3 / 8; 1 / 2; 3 / 4]%float startedAtThird []
      = (s', t0 :: t1 :: t2 :: rest, Scheduler64.Returned) ∧
    Scheduler64._bpm s' = 120%float ∧
    (t2 - t1 =? 60 / (4 * 120))%float = false ∧
    exactValue t1 = Some x1 ∧ exactValue t2 = Some x2 ∧
    ¬ (x2 - x1 == 60 / (4 * 120))%Q ∧
    ((1 # 8) - (x2 - x1) == 1 # 18014398509481984)%Q.
Proof.
  eexists _, _, _, _, _, _, _.
  split; [vm_compute; reflexivity|].
  split; [reflexivity|]. split; [vm_compute; reflexivity|].
  split; [vm_compute; reflexivity|]. split; [vm_compute; reflexivity|].
  split; [|vm_compute; reflexivity].
  intros Heq. vm_compute in Heq. discriminate.
Qed.

(** Started at 0 instead, every sum is exact and the times are 0.125 s
    apart. *)
Example tick_times_from_zero :
  (Scheduler64.runPolls 8 [0; 1 / 4; 1 / 2]%float
     (Scheduler64.start Scheduler64.recordTime 0
        (Scheduler64.create 120 (Scheduler64.mkConfig (1 / 10) 25))) []).1.2
  = [0; 0.125; 0.25; 0.375; 0.5]%float.
Proof. vm_compute. reflexivity. Qed.

(** ** The theorems at concrete states

    The states are built from the kick and snare pattern of the Sequencer
    tests by the public operations only. *)

(** A loaded but stopped Sequencer ignores ticks. *)
Lemma tick_ignored_unless_playing_witness :
  Sequencer.status loadedSequencer = Sequencer.stopped ∧
  voices (Sequencer._onSchedulerTick 0 0 loadedSequencer) = [] ∧
  Sequencer.currentStep (Sequencer._onSchedulerTick 0 (5 # 4) loadedSequencer)
    = Int 0.
Proof.
  split; [reflexivity|].
  destruct (tick_ignored_unless_playing 0 0 loadedSequencer) as (_ & -> & _);
    [discriminate|].
  destruct (tick_ignored_unless_playing 0 (5 # 4) loadedSequencer)
    as (_ & _ & ->); [discriminate|].
  split; reflexivity.
Defined.

(** The kick is soloed and muted and has an active step 0: the tick at beat 0
    issues nothing. *)
Lemma mute_precedence_witness :
  (∃ A st, (Pattern.tracks <$> Sequencer.pattern mutedSoloedKick)
             = Some (A :: [snareTrack]) ∧
           Track.muted A = true ∧ Track.soloed A = true ∧
           Track.steps A !! 0%nat = Some st ∧ Step.active st = true) ∧
  voices (Sequencer._onSchedulerTick 0 0 mutedSoloedKick) = [].
Proof.
  split.
  - eexists _, _. repeat split; reflexivity.
  - destruct (mute_precedence 0 0 mutedSoloedKick
                mutedSoloedPattern
                0 (flipMuted (flipSoloed kickTrack))) as [_ Hvoices];
      [reflexivity|reflexivity|reflexivity|reflexivity|].
    rewrite Hvoices. reflexivity.
Defined.

(** The hat track has 4 steps; at beat 1 (step 4) it is skipped and the snare
    after it still plays. *)
Lemma missing_step_is_skipped_witness :
  array_get (Track.steps shortTrack) (Int 4) = None ∧
  (VoiceConfig.sampleId <$>
     voices (Sequencer._onSchedulerTick 0 1 raggedSequencer)) = ["snare"].
Proof.
  split; [reflexivity|].
  destruct (missing_step_is_skipped 0 1 raggedSequencer raggedPattern 0 shortTrack)
    as (_ & -> & _); reflexivity.
Defined.



(** Beat 4 wraps to step 0, beat 5.25 (step 21) to step 5. *)
Lemma loop_wrap_witness :
  Sequencer.currentStep (Sequencer._onSchedulerTick 0 4 playingSequencer) = Int 0 ∧
  Sequencer.currentStep (Sequencer._onSchedulerTick 0 (21 # 4) playingSequencer)
    = Int (21 mod 16).
Proof.
  split.
  - apply (loop_wrap 0 4 playingSequencer testPattern); reflexivity.
  - apply (loop_wrap 0 (21 # 4) playingSequencer testPattern);
      [reflexivity|reflexivity|discriminate|reflexivity].
Defined.

(** C4 as stated fails: with the test pattern loaded (modifiedAt 0), each of
    the four map-based edits on the unknown id "ghost" at time 1 changes the
    Sequencer, because the held pattern's [modifiedAt] becomes 1. *)
Lemma unknown_track_edit_refreshes_modifiedAt :
  ("ghost" ∉ trackIds testPattern) ∧
  Sequencer.pattern loadedSequencer = Some testPattern ∧
  Sequencer.toggleMute 1 "ghost" loadedSequencer ≠ loadedSequencer ∧
  Sequencer.toggleStep 1 "ghost" 0 loadedSequencer ≠ loadedSequencer ∧
  Sequencer.setStepVelocity 1 "ghost" 0 (1 # 2) loadedSequencer ≠ loadedSequencer ∧
  Sequencer.setTrackVolume 1 "ghost" (1 # 2) loadedSequencer ≠ loadedSequencer ∧
  (Pattern.modifiedAt <$> Sequencer.pattern loadedSequencer) = Some 0 ∧
  (Pattern.modifiedAt <$> Sequencer.pattern
     (Sequencer.toggleMute 1 "ghost" loadedSequencer)) = Some 1.
Proof.
  split; [compute_done|].
  split; [reflexivity|].
  repeat split; try reflexivity; intros Heq;
    apply (f_equal (λ s, Pattern.modifiedAt <$> Sequencer.pattern s)) in Heq;
    vm_compute in Heq; discriminate.
Qed.

(** The unknown id "ghost" on the loaded test pattern. *)
Lemma unknown_track_edits_witness :
  Sequencer.toggleMute 1 "ghost" loadedSequencer =
    Sequencer.set_pattern (Some (withModifiedAt 1 testPattern)) loadedSequencer ∧
  Sequencer.toggleSolo 1 "ghost" loadedSequencer = loadedSequencer.
Proof.
  assert (∀ p, Sequencer._pattern loadedSequencer = Some p → "ghost" ∉ trackIds p)
    as Habsent.
  { intros p [= <-]. compute_done. }
  destruct (unknown_track_edits 1 "ghost" 0 (1 # 2) loadedSequencer Habsent)
    as (_ & _ & _ & Hmute & Hsolo & _).
  split; [exact Hmute|exact Hsolo].
Defined.

(** C3 (solo-set in sync), evaluated where it fails. A new Sequencer has the
    solo-set in sync with its (absent) pattern. [setPattern] with a pattern
    whose kick track has [soloed = true] leaves the solo-set empty although
    the set of soloed track ids of the held pattern is now [{kick}]: the
    invariant is lost. *)
Theorem setPattern_leaves_solo_set_stale :
  soloInSync freshSequencer ∧
  Sequencer._soloedTracks (Sequencer.setPattern soloedKickPattern freshSequencer) = ∅ ∧
  soloedIds (Sequencer._pattern
               (Sequencer.setPattern soloedKickPattern freshSequencer))
    = {[ "kick" ]} ∧
  ¬ soloInSync (Sequencer.setPattern soloedKickPattern freshSequencer).
Proof.
  split; [reflexivity|]. split; [reflexivity|].
  assert (soloedIds (Sequencer._pattern
            (Sequencer.setPattern soloedKickPattern freshSequencer))
          = {[ "kick" ]}) as Hids by (vm_compute; reflexivity).
  split; [exact Hids|]. unfold soloInSync. rewrite Hids. simpl.
  intros Heq. assert ("kick" ∈ (∅ : gset string)) by (rewrite Heq; set_solver).
  set_solver.
Qed.

(** C2 (solo isolation), evaluated where it fails. Solo the kick, load a
    pattern in which the snare carries the [soloed] flag, and play: the
    solo-set is [{kick}], it is not empty, the snare is outside it, and the
    tick at beat 1 issues a voice command for the snare. *)
Theorem stale_solo_set_lets_outsider_trigger :
  Sequencer.status staleSoloSequencer = Sequencer.playing ∧
  Sequencer._soloedTracks staleSoloSequencer = {[ "kick" ]} ∧
  ("snare" ∉ Sequencer._soloedTracks staleSoloSequencer) ∧
  (VoiceConfig.sampleId <$>
     voices (Sequencer._onSchedulerTick 0 1 staleSoloSequencer)) = ["snare"].
Proof.
  assert (Sequencer._soloedTracks staleSoloSequencer = {[ "kick" ]}) as Hset
    by (vm_compute; reflexivity).
  split; [reflexivity|]. split; [exact Hset|]. split.
  - rewrite Hset. set_solver.
  - vm_compute. reflexivity.
Qed.

(** 120 BPM, lookahead 0.1 s, started at 1/3 s and polled at 0 s, 0.025 s and
    0.5 s: in exact arithmetic the recorded times are 0.125 s apart. *)
Lemma exact_arithmetic_schedule_witness :
  ∃ (fuel0 : nat) s' (times : list Q),
    Scheduler.runPolls fuel0 [0; 1 # 40; 1 # 2]%Q
      (Scheduler.start Scheduler.recordTime (1 # 3)
         (Scheduler.create 120 (Scheduler.mkConfig (1 # 10) 25))) []
      = Some (s', times) ∧
    ∀ k t t', times !! k = Some t → times !! S k = Some t' →
      (t' - t == 1 # 8)%Q.
Proof.
  destruct (exact_arithmetic_schedule 120 (1 # 10) 25 (1 # 3)
              [0; 1 # 40; 1 # 2]%Q)
    as (fuel0 & s' & times & Hrun & Hdiff & _); [discriminate|discriminate|].
  exists fuel0, s', times. split; [apply Hrun; apply le_n|].
  intros k t t' Hk Hk'. rewrite (Hdiff k t t' Hk Hk'). reflexivity.
Defined.

(** ** The scenarios of the test suite *)

Example plays_kick_on_step_0 :
  (VoiceConfig.sampleId <$>
     voices (Sequencer._onSchedulerTick 0 0 playingSequencer)) = ["kick"].
Proof. reflexivity. Qed.

Example plays_snare_on_step_4 :
  (VoiceConfig.sampleId <$>
     voices (Sequencer._onSchedulerTick 0 1 playingSequencer)) = ["snare"].
Proof. reflexivity. Qed.

Example updates_current_step :
  Sequencer.currentStep (Sequencer._onSchedulerTick 0 2 playingSequencer)
    = Int 8.
Proof. reflexivity. Qed.

Example stop_resets_position :
  Sequencer.currentStep
    (Sequencer.stop (Sequencer._onSchedulerTick 1 2 playingSequencer)) = Int 0 ∧
  Sequencer.status
    (Sequencer.stop (Sequencer._onSchedulerTick 1 2 playingSequencer))
    = Sequencer.stopped.
Proof. split; reflexivity. Qed.

Example only_soloed_tracks_play :
  let soloed :=
    Sequencer.play (Sequencer.toggleSolo 1 "kick" loadedSequencer) in
  voices (Sequencer._onSchedulerTick 0 1 soloed) = [] ∧
  (VoiceConfig.sampleId <$> voices (Sequencer._onSchedulerTick 0 0 soloed))
    = ["kick"].
Proof. split; vm_compute; reflexivity. Qed.

Example destroy_releases_pattern :
  Sequencer.pattern (Sequencer.destroy playingSequencer) = None ∧
  Sequencer.status (Sequencer.destroy playingSequencer) = Sequencer.stopped ∧
  Sequencer._soloedTracks (Sequencer.destroy playingSequencer) = ∅.
Proof. repeat split; reflexivity. Qed.

(** What the stale solo-set does to playback: after soloing the kick and
    loading the plain test pattern again, no track of the held pattern is
    soloed, yet the solo-set still holds "kick" and the tick at beat 0, where
    the kick has an active step, issues nothing. *)
Example stale_solo_set_silences_pattern :
  soloedIds (Sequencer.pattern silencedSequencer) = ∅ ∧
  Sequencer._soloedTracks silencedSequencer = {[ "kick" ]} ∧
  voices (Sequencer._onSchedulerTick 0 0 silencedSequencer) = [] ∧
  (VoiceConfig.sampleId <$>
     voices (Sequencer._onSchedulerTick 0 0 playingSequencer)) = ["kick"].
Proof. repeat split; vm_compute; reflexivity. Qed.

(** The scheduler at 120 BPM with the default lookahead, started at time 0
    and polled at 0 s and 0.25 s: ticks at 0, 0.125 and 0.25 s are flushed by
    the two firings (one by the first, two by the second). *)
Example scheduler_flushes_lookahead_window :
  let s0 :=
    Scheduler.start Scheduler.recordTime 0%Q
      (Scheduler.create 120%Q
         (Scheduler.mkConfig Scheduler.LOOKAHEAD_TIME
            Scheduler.SCHEDULE_INTERVAL)) in
  (snd <$> Scheduler.runPolls 5 [0%Q] s0 []) = Some [0%Q] ∧
  (length ∘ snd <$> Scheduler.runPolls 5 [0; 1 # 4]%Q s0 []) = Some 3%nat ∧
  Scheduler.runPolls 1 [0; 1 # 4]%Q s0 [] = None.
Proof. repeat split; vm_compute; reflexivity. Qed.

(** * Further properties *)

(** ** Pattern model: edits *)

Lemma mapStepAt_length (f : Step.t → Step.t) (i : Z) (steps : list Step.t) :
  length (mapStepAt f i steps) = length steps.
Proof. unfold mapStepAt. apply length_imap. Qed.

Lemma mapStepAt_lookup (f : Step.t → Step.t) (i : Z) (steps : list Step.t)
    (j : nat) :
  mapStepAt f i steps !! j =
  (λ st, if Z.of_nat j =? i then f st else st) <$> steps !! j.
Proof. unfold mapStepAt. apply list_lookup_imap. Qed.

Lemma mapTrack_lookup (f : Track.t → Track.t) (t : string)
    (tracks : list Track.t) (k : nat) :
  mapTrack f t tracks !! k =
  (λ track, if String.eqb (Track.id track) t then f track else track)
    <$> tracks !! k.
Proof. unfold mapTrack. apply list_lookup_fmap. Qed.

Lemma mapTrack_shape (f : Track.t → Track.t) (t : string)
    (tracks : list Track.t) :
  (∀ track, trackShape (f track) = trackShape track) →
  trackShape <$> mapTrack f t tracks = trackShape <$> tracks.
Proof.
  intros Hf. unfold mapTrack. rewrite <- list_fmap_compose.
  apply list_fmap_ext. intros k track _. simpl.
  destruct (String.eqb _ _); [apply Hf|done].
Qed.

Lemma mapTrack_comm (f g : Track.t → Track.t) (t t' : string)
    (tracks : list Track.t) :
  (∀ track, Track.id (f track) = Track.id track) →
  (∀ track, Track.id (g track) = Track.id track) →
  (∀ track, f (g track) = g (f track)) →
  mapTrack f t (mapTrack g t' tracks) = mapTrack g t' (mapTrack f t tracks).
Proof.
  intros Hf Hg Hfg. unfold mapTrack. rewrite <- !list_fmap_compose.
  apply list_fmap_ext. intros k track _. simpl.
  destruct (String.eqb (Track.id track) t') eqn:E';
    destruct (String.eqb (Track.id track) t) eqn:E;
    rewrite ?Hf, ?Hg, ?E, ?E'; by rewrite ?Hfg.
Qed.

Lemma mapTrack_fuse (f g h : Track.t → Track.t) (t : string)
    (tracks : list Track.t) :
  (∀ track, Track.id (g track) = Track.id track) →
  (∀ track, f (g track) = h track) →
  mapTrack f t (mapTrack g t tracks) = mapTrack h t tracks.
Proof.
  intros Hg Hfg. unfold mapTrack. rewrite <- list_fmap_compose.
  apply list_fmap_ext. intros k track _. simpl.
  destruct (String.eqb (Track.id track) t) eqn:E; rewrite ?Hg, E; by rewrite ?Hfg.
Qed.

(** X1 (toggleStep touches one step). [toggleStep] keeps the number of
    tracks; a track with another id is returned as it is; in a track with the
    given id every field but [steps] and the number of steps are kept, the
    step at the given index has its [active] flag negated and its velocity
    kept, and every other step is unchanged. *)
Theorem toggleStep_only_that_step (now : Z) (p : Pattern.t) (t : string)
    (i : Z) (k : nat) (track : Track.t) :
  Pattern.tracks p !! k = Some track →
  ∃ track',
    Pattern.tracks (toggleStep now p t i) !! k = Some track' ∧
    length (Pattern.tracks (toggleStep now p t i)) = length (Pattern.tracks p) ∧
    (Track.id track ≠ t → track' = track) ∧
    withSteps (Track.steps track) track' = track ∧
    length (Track.steps track') = length (Track.steps track) ∧
    ∀ (j : nat) (st : Step.t), Track.steps track !! j = Some st →
      Track.steps track' !! j =
        Some (if String.eqb (Track.id track) t && (Z.of_nat j =? i)
              then Step.mk (negb (Step.active st)) (Step.velocity st)
              else st).
Proof.
  intros Hk. unfold toggleStep, withTracks. simpl.
  rewrite mapTrack_lookup, Hk. simpl. eexists. split; [done|].
  split; [unfold mapTrack; by rewrite length_fmap|].
  destruct (String.eqb_spec (Track.id track) t) as [Heq|Hne]; simpl.
  - split; [done|]. split; [by destruct track|].
    split; [apply mapStepAt_length|].
    intros j st Hj. rewrite mapStepAt_lookup, Hj. simpl.
    by destruct (Z.of_nat j =? i).
  - split; [done|]. split; [by destruct track|]. split; [done|].
    intros j st Hj. done.
Qed.

Lemma toggleStep_only_that_step_witness :
  ∃ track', Pattern.tracks (toggleStep 1 testPattern "kick" 1) !! 0%nat
              = Some track' ∧
            (Step.active <$> Track.steps track' !! 1%nat) = Some true ∧
            (Step.active <$> Track.steps track' !! 0%nat) = Some true ∧
            (Step.active <$> Track.steps track' !! 2%nat) = Some false.
Proof.
  destruct (toggleStep_only_that_step 1 testPattern "kick" 1 0 kickTrack eq_refl)
    as (track' & Hk & _ & _ & _ & _ & Hsteps).
  exists track'. split; [exact Hk|].
  rewrite (Hsteps 1%nat (Step.mk false (9 # 10)) eq_refl).
  rewrite (Hsteps 0%nat (Step.mk true (9 # 10)) eq_refl).
  rewrite (Hsteps 2%nat (Step.mk false (9 # 10)) eq_refl).
  repeat split.
Defined.

(** [stepIndex] returns its argument when it lies in [0, maxSteps) and throws
    otherwise; an index validated against the length of a steps array
    addresses an element of it. *)
Theorem stepIndex_in_bounds (value maxSteps : Z) :
  (0 <= value < maxSteps → stepIndex value maxSteps = inr value) ∧
  (¬ (0 <= value < maxSteps) →
   stepIndex value maxSteps = inl (StepIndexOutOfBounds value maxSteps)) ∧
  ∀ (steps : list Step.t) (i : Z),
    stepIndex value (Z.of_nat (length steps)) = inr i →
    i = value ∧ is_Some (array_get steps (Int i)).
Proof.
  unfold stepIndex. split; [|split].
  - intros [Hlo Hhi]. assert ((value <? 0) = false) as -> by lia.
    assert ((maxSteps <=? value) = false) as -> by lia. done.
  - intros Hout. destruct (value <? 0) eqn:E1; [done|].
    destruct (maxSteps <=? value) eqn:E2; [done|]. lia.
  - intros steps i. destruct (value <? 0) eqn:E1; [done|].
    destruct (_ <=? value) eqn:E2; [done|]. simpl. intros [= <-].
    split; [done|]. unfold array_get. rewrite E1.
    apply lookup_lt_is_Some. lia.
Qed.

(** X2 (last velocity wins). Setting the velocity of the same step of the
    same track twice leaves the pattern that the second call alone
    produces. *)
Theorem setStepVelocity_last_write_wins (now1 now2 : Z) (p : Pattern.t)
    (t : string) (i : Z) (v1 v2 : Q) :
  setStepVelocity now2 (setStepVelocity now1 p t i v1) t i v2 =
  setStepVelocity now2 p t i v2.
Proof.
  unfold setStepVelocity, withTracks. simpl. f_equal.
  apply mapTrack_fuse; [by intros []|].
  intros track. unfold withSteps. simpl. f_equal.
  apply list_eq. intros j. rewrite !mapStepAt_lookup.
  destruct (Track.steps track !! j); simpl; [|done].
  by destruct (Z.of_nat j =? i).
Qed.

(** X3 (track toggles undo themselves). [toggleTrackMute] applied twice with
    the same id, and likewise [toggleTrackSolo], gives back the pattern with
    only [modifiedAt] replaced, whether or not the id occurs in it. *)
Theorem track_toggles_twice_restore (now1 now2 : Z) (p : Pattern.t)
    (t : string) :
  toggleTrackMute now2 (toggleTrackMute now1 p t) t = withModifiedAt now2 p ∧
  toggleTrackSolo now2 (toggleTrackSolo now1 p t) t = withModifiedAt now2 p.
Proof.
  unfold toggleTrackMute, toggleTrackSolo, withModifiedAt, withTracks. simpl.
  split; f_equal; apply mapTrack_involutive; try by intros [].
  - intros []. unfold flipMuted. simpl. by rewrite negb_involutive.
  - intros []. unfold flipSoloed. simpl. by rewrite negb_involutive.
Qed.

Lemma clearSteps_length (steps : list Step.t) :
  length (clearSteps steps) = length steps.
Proof. unfold clearSteps. apply length_fmap. Qed.

(** X4 (edits keep the shape). None of [toggleStep], [setStepVelocity],
    [setTrackVolume], [toggleTrackMute], [toggleTrackSolo], [clearTrack] and
    [clearPattern] adds, removes or reorders a track or a step: the pattern's
    id, name, length, time signature and creation date, and each track's id,
    name, sample id, colour and number of steps are unchanged. *)
Theorem edits_preserve_shape (now : Z) (p : Pattern.t) (t : string) (i : Z)
    (v : Q) :
  patternShape (toggleStep now p t i) = patternShape p ∧
  patternShape (setStepVelocity now p t i v) = patternShape p ∧
  patternShape (setTrackVolume now p t v) = patternShape p ∧
  patternShape (toggleTrackMute now p t) = patternShape p ∧
  patternShape (toggleTrackSolo now p t) = patternShape p ∧
  patternShape (clearTrack now p t) = patternShape p ∧
  patternShape (clearPattern now p) = patternShape p.
Proof.
  unfold patternShape, toggleStep, setStepVelocity, setTrackVolume,
    toggleTrackMute, toggleTrackSolo, clearTrack, clearPattern, withTracks.
  simpl.
  repeat split; f_equal; try (apply mapTrack_shape; intros track;
    unfold trackShape; simpl; by rewrite ?mapStepAt_length, ?clearSteps_length).
  rewrite <- list_fmap_compose. apply list_fmap_ext. intros k track _.
  unfold trackShape. simpl. by rewrite clearSteps_length.
Qed.

(** X5 (toggles commute). Two step toggles, a step toggle and a mute or solo
    toggle, and a mute and a solo toggle give the same pattern in either
    order, for any track ids and step indices, equal or not. *)
Theorem toggles_commute (now1 now2 : Z) (p : Pattern.t) (t t' : string)
    (i j : Z) :
  toggleStep now2 (toggleStep now1 p t' j) t i =
    toggleStep now2 (toggleStep now1 p t i) t' j ∧
  toggleStep now2 (toggleTrackMute now1 p t') t i =
    toggleTrackMute now2 (toggleStep now1 p t i) t' ∧
  toggleStep now2 (toggleTrackSolo now1 p t') t i =
    toggleTrackSolo now2 (toggleStep now1 p t i) t' ∧
  toggleTrackMute now2 (toggleTrackSolo now1 p t') t =
    toggleTrackSolo now2 (toggleTrackMute now1 p t) t'.
Proof.
  unfold toggleStep, toggleTrackMute, toggleTrackSolo, withTracks. simpl.
  repeat split; f_equal; apply mapTrack_comm; try by intros [].
  intros track. unfold withSteps. simpl. f_equal.
  apply list_eq. intros n. rewrite !mapStepAt_lookup.
  destruct (Track.steps track !! n); simpl; [|done].
  by destruct (Z.of_nat n =? i), (Z.of_nat n =? j).
Qed.

(** ** Pattern model: adding, removing and clearing *)

Lemma filter_other_ids (t : string) (tracks : list Track.t) :
  t ∉ Track.id <$> tracks →
  List.filter (λ track, negb (String.eqb (Track.id track) t)) tracks = tracks.
Proof.
  induction tracks as [|a rest IH]; [done|].
  rewrite fmap_cons, not_elem_of_cons. intros [Hne Hrest]. simpl.
  destruct (String.eqb_spec (Track.id a) t); [congruence|]. simpl.
  by rewrite IH.
Qed.

Lemma filter_ids_sublist (t : string) (tracks : list Track.t) :
  List.filter (λ track, negb (String.eqb (Track.id track) t)) tracks
    `sublist_of` tracks.
Proof.
  induction tracks as [|a rest IH]; simpl; [constructor|].
  destruct (negb _); by constructor.
Qed.

(** X6 (add then remove). Removing a track just added, whose id no track of
    the pattern had, gives back the pattern with only [modifiedAt]
    replaced. *)
Theorem removeTrack_addTrack_roundtrip (now1 now2 : Z) (p : Pattern.t)
    (track : Track.t) :
  Track.id track ∉ trackIds p →
  removeTrack now2 (addTrack now1 p track) (Track.id track)
    = withModifiedAt now2 p.
Proof.
  intros Hfresh. unfold removeTrack, addTrack, withModifiedAt, withTracks.
  simpl. f_equal. rewrite List.filter_app. simpl.
  rewrite String.eqb_refl. simpl. rewrite app_nil_r.
  by apply filter_other_ids.
Qed.

Lemma removeTrack_addTrack_roundtrip_witness :
  removeTrack 2 (addTrack 1 testPattern shortTrack) "hat"
    = withModifiedAt 2 testPattern.
Proof.
  apply (removeTrack_addTrack_roundtrip 1 2 testPattern shortTrack).
  compute_done.
Defined.

(** X7 (removeTrack). After [removeTrack] the tracks are those of the
    pattern with another id, in their order; no track with the id is left;
    and removing an id that does not occur changes only [modifiedAt]. *)
Theorem removeTrack_removes_id (now : Z) (p : Pattern.t) (t : string)
    (track : Track.t) :
  (track ∈ Pattern.tracks (removeTrack now p t) ↔
   track ∈ Pattern.tracks p ∧ Track.id track ≠ t) ∧
  Pattern.tracks (removeTrack now p t) `sublist_of` Pattern.tracks p ∧
  (t ∉ trackIds (removeTrack now p t)) ∧
  (t ∉ trackIds p → removeTrack now p t = withModifiedAt now p).
Proof.
  unfold removeTrack, trackIds, withModifiedAt, withTracks. simpl.
  assert (∀ x, x ∈ List.filter
                 (λ track, negb (String.eqb (Track.id track) t))
                 (Pattern.tracks p) ↔
               x ∈ Pattern.tracks p ∧ Track.id x ≠ t) as Hin.
  { intros x. rewrite !list_elem_of_In, List.filter_In.
    destruct (String.eqb_spec (Track.id x) t); naive_solver. }
  split; [apply Hin|]. split; [|split].
  - apply filter_ids_sublist.
  - intros (x & Hx & Hmem)%list_elem_of_fmap. apply Hin in Hmem. naive_solver.
  - intros Habsent. f_equal. by apply filter_other_ids.
Qed.

Lemma clearSteps_lookup (steps : list Step.t) (j : nat) (st : Step.t) :
  clearSteps steps !! j = Some st → st = Step.mk false DEFAULT_STEP_VELOCITY.
Proof.
  unfold clearSteps. rewrite list_lookup_fmap.
  destruct (steps !! j); simpl; [by intros [= <-]|done].
Qed.

Lemma clearSteps_idemp (steps : list Step.t) :
  clearSteps (clearSteps steps) = clearSteps steps.
Proof. unfold clearSteps. by rewrite <- list_fmap_compose. Qed.

Lemma clearPattern_all_inactive_aux (now : Z) (p : Pattern.t) (k j : nat)
    (track : Track.t) (st : Step.t) :
  Pattern.tracks (clearPattern now p) !! k = Some track →
  Track.steps track !! j = Some st →
  Step.active st = false ∧ Step.velocity st = DEFAULT_STEP_VELOCITY.
Proof.
  unfold clearPattern, withTracks. simpl.
  rewrite list_lookup_fmap. destruct (Pattern.tracks p !! k); simpl; [|done].
  intros [= <-]. simpl. by intros ->%clearSteps_lookup.
Qed.

(** X8 (clearPattern). After [clearPattern] every step of every track is
    inactive with the default velocity 0.8, and clearing twice is clearing
    once. *)
Theorem clearPattern_all_inactive (now now' : Z) (p : Pattern.t) :
  (∀ (k j : nat) (track : Track.t) (st : Step.t),
     Pattern.tracks (clearPattern now p) !! k = Some track →
     Track.steps track !! j = Some st →
     Step.active st = false ∧ Step.velocity st = DEFAULT_STEP_VELOCITY) ∧
  clearPattern now' (clearPattern now p) = clearPattern now' p.
Proof.
  split.
  - intros k j track st. apply clearPattern_all_inactive_aux.
  - unfold clearPattern, withTracks. simpl. f_equal.
    rewrite <- list_fmap_compose. apply list_fmap_ext. intros k track _.
    simpl. unfold withSteps. simpl. by rewrite clearSteps_idemp.
Qed.

(** [clearTrack] replaces the steps of the tracks with the given id by as
    many inactive default steps and returns the other tracks as they are. *)
Theorem clearTrack_only_that_track (now : Z) (p : Pattern.t) (t : string)
    (k : nat) (track : Track.t) :
  Pattern.tracks p !! k = Some track →
  Pattern.tracks (clearTrack now p t) !! k =
    Some (if String.eqb (Track.id track) t
          then withSteps
                 (replicate (length (Track.steps track))
                    (Step.mk false DEFAULT_STEP_VELOCITY)) track
          else track).
Proof.
  intros Hk. unfold clearTrack, withTracks. simpl.
  rewrite mapTrack_lookup, Hk. simpl.
  destruct (String.eqb _ _); [|done]. do 2 f_equal.
  unfold clearSteps. induction (Track.steps track); simpl; [done|].
  by f_equal.
Qed.

Lemma clearTrack_only_that_track_witness :
  Pattern.tracks (clearTrack 1 testPattern "kick") !! 1%nat = Some snareTrack ∧
  (Track.steps <$> Pattern.tracks (clearTrack 1 testPattern "kick") !! 0%nat)
    = Some (replicate 16 (Step.mk false (8 # 10))).
Proof.
  split.
  - exact (clearTrack_only_that_track 1 testPattern "kick" 1 snareTrack eq_refl).
  - rewrite (clearTrack_only_that_track 1 testPattern "kick" 0 kickTrack eq_refl).
    reflexivity.
Defined.

(** ** Pattern model: the factories *)

(** X9 (createPattern falls back on falsy fields). A created pattern never
    has length 0 (an absent or zero [length] becomes 16) nor an empty name;
    its id is not empty when the generated id is not; and with no
    parameters it is the untitled, empty, 16-step 4/4 pattern. *)
Theorem createPattern_defaults (uuid : string) (created modified : Z)
    (params : CreatePatternParams.t) :
  Pattern.length (createPattern uuid created modified params) ≠ 0 ∧
  Pattern.name (createPattern uuid created modified params) ≠ "" ∧
  (uuid ≠ "" → Pattern.id (createPattern uuid created modified params) ≠ "") ∧
  (CreatePatternParams.length params = Some 0 →
   Pattern.length (createPattern uuid created modified params) = 16) ∧
  createPattern uuid created modified CreatePatternParams.empty =
    Pattern.mk uuid "Untitled Pattern" [] 16 (TimeSignature.mk 4 4)
      created modified.
Proof.
  unfold createPattern. simpl. repeat split.
  - destruct (CreatePatternParams.length params) as [l|]; simpl; [|done].
    destruct (Z.eqb_spec l 0); done.
  - destruct (CreatePatternParams.name params) as [n|]; simpl; [|done].
    destruct (String.eqb_spec n ""); done.
  - intros Hu. destruct (CreatePatternParams.id params) as [n|]; simpl; [|done].
    destruct (String.eqb_spec n ""); done.
  - by intros ->.
Qed.

(** X10 (createTrack defaults). A created track is neither muted nor soloed;
    its volume is never 0, because an absent or zero [volume] becomes 0.8;
    absent [steps] become 16 inactive steps of velocity 0.8, and given
    [steps], the empty array too, are kept. *)
Theorem createTrack_defaults (uuid : string) (params : CreateTrackParams.t) :
  Track.muted (createTrack uuid params) = false ∧
  Track.soloed (createTrack uuid params) = false ∧
  ¬ (Track.volume (createTrack uuid params) == 0)%Q ∧
  ((∀ v, CreateTrackParams.volume params = Some v → (v == 0)%Q) →
   Track.volume (createTrack uuid params) = 8 # 10) ∧
  (CreateTrackParams.steps params = None →
   Track.steps (createTrack uuid params)
     = replicate 16 (Step.mk false (8 # 10))) ∧
  (∀ steps, CreateTrackParams.steps params = Some steps →
   Track.steps (createTrack uuid params) = steps).
Proof.
  unfold createTrack. simpl. repeat split.
  - destruct (CreateTrackParams.volume params) as [v|]; simpl; [|done].
    destruct (Qeq_bool v 0) eqn:E; [done|]. by apply Qeq_bool_neq.
  - intros Hzero. destruct (CreateTrackParams.volume params) as [v|]; simpl; [|done].
    specialize (Hzero v eq_refl). apply Qeq_bool_iff in Hzero. by rewrite Hzero.
  - by intros ->.
  - by intros steps ->.
Qed.

(** ** Clamps *)

Lemma clamp_spec (lo hi x : Q) :
  (lo <= hi)%Q →
  ((x <= lo ∧ Qmax lo (Qmin hi x) == lo) ∨
   (lo <= x ∧ x <= hi ∧ Qmax lo (Qmin hi x) == x) ∨
   (hi <= x ∧ Qmax lo (Qmin hi x) == hi))%Q.
Proof.
  intros Hlh.
  destruct (Q.max_spec lo (Qmin hi x)) as [[? E1]|[? E1]];
    destruct (Q.min_spec hi x) as [[? E2]|[? E2]];
    rewrite E1; rewrite E2 in *; clear E1 E2;
    destruct (Qlt_le_dec x lo); destruct (Qlt_le_dec hi x);
    first [ left; split; lra | right; left; repeat split; lra
          | right; right; split; lra ].
Qed.


(** X12 (gainValue clamps). [gainValue] sends what is below 0 to 0 and what
    is above 1 to 1, is idempotent and is monotone. *)
Theorem gainValue_clamp_laws (x y : Q) :
  ((x <= 0)%Q → (gainValue x == 0)%Q) ∧
  ((1 <= x)%Q → (gainValue x == 1)%Q) ∧
  (gainValue (gainValue x) == gainValue x)%Q ∧
  ((x <= y)%Q → (gainValue x <= gainValue y)%Q).
Proof.
  unfold gainValue.
  assert (0 <= 1)%Q as H0 by lra.
  pose proof (clamp_spec 0 1 x H0) as Hx.
  pose proof (clamp_spec 0 1 y H0) as Hy.
  pose proof (clamp_spec 0 1 (Qmax 0 (Qmin 1 x)) H0) as Hxx.
  repeat split; intros; lra.
Qed.

(** A scheduler created with a clamped tempo ticks every 0.075 to 0.25
    seconds. *)
Theorem clamped_tempo_step_bounds {W : Type} (value : Q)
    (config : Scheduler.SchedulerConfig) :
  let s : Scheduler.t W := Scheduler.create (bpm value) config in
  (3 # 40 <= Scheduler.getSecondsPerStep s ∧
   Scheduler.getSecondsPerStep s <= 1 # 4)%Q.
Proof.
  intros s. unfold s, Scheduler.getSecondsPerStep, Scheduler.getSecondsPerBeat.
  simpl. assert (60 <= bpm value ∧ bpm value <= 200)%Q as [Hlo Hhi].
  { unfold bpm. assert (60 <= 200)%Q as H0 by lra.
    pose proof (clamp_spec 60 200 value H0). split; lra. }
  set (b := bpm value) in *.
  assert (60 / b / 4 == 15 / b)%Q as -> by (field; lra).
  split.
  - apply Qle_shift_div_l; lra.
  - apply Qle_shift_div_r; lra.
Qed.

(** ** Scheduler: lifecycle *)

(** A second [start] changes nothing, [stop] is idempotent, and [start] after
    [stop] begins again at beat 0 and the given time. *)
Theorem scheduler_start_stop {W : Type} (cb cb' : Scheduler.SchedulerCallback W)
    (time time' : Q) (s : Scheduler.t W) :
  Scheduler.start cb' time' (Scheduler.start cb time s)
    = Scheduler.start cb time s ∧
  Scheduler.stop (Scheduler.stop s) = Scheduler.stop s ∧
  Scheduler.start cb time (Scheduler.stop s) =
    Scheduler.mk (Scheduler._config s) (Scheduler._bpm s) true true (Some cb)
      0%Q time ∧
  Scheduler.stop (Scheduler.start cb time (Scheduler.stop s))
    = Scheduler.stop (Scheduler.start cb time s).
Proof.
  unfold Scheduler.start, Scheduler.stop.
  destruct s as [c b r i k bt nt]; destruct r; simpl; done.
Qed.

(** X15 (a stopped scheduler is quiet). After [stop] the scheduler is not
    running, and timer firings on a scheduler that is not running, however
    many and with whatever fuel, call no callback and leave it unchanged. *)
Theorem stopped_scheduler_is_quiet {W : Type} (fuel : nat) (polls : list Q)
    (s : Scheduler.t W) (w : W) :
  Scheduler.isRunning (Scheduler.stop s) = false ∧
  Scheduler.runPolls fuel polls (Scheduler.stop s) w
    = Some (Scheduler.stop s, w) ∧
  (Scheduler._isRunning s = false →
   Scheduler.runPolls fuel polls s w = Some (s, w)).
Proof.
  assert (∀ s' : Scheduler.t W, Scheduler._isRunning s' = false →
            Scheduler.runPolls fuel polls s' w = Some (s', w)) as Hquiet.
  { intros s' Hs'. induction polls as [|now polls IH]; simpl; [done|].
    unfold Scheduler._scheduleLoop. rewrite Hs'. simpl.
    by destruct (Scheduler._callback s'). }
  assert (Scheduler._isRunning (Scheduler.stop s) = false) as Hstop.
  { unfold Scheduler.stop. by destruct (Scheduler._isRunning s) eqn:E. }
  split; [exact Hstop|]. split; [by apply Hquiet|apply Hquiet].
Qed.

Lemma stopped_scheduler_is_quiet_witness :
  Scheduler.runPolls 0 [0; 1; 2]%Q
    (Scheduler.create 120 (Scheduler.mkConfig (1 # 10) 25)) ([] : list Q)
  = Some (Scheduler.create 120 (Scheduler.mkConfig (1 # 10) 25), []).
Proof.
  apply (stopped_scheduler_is_quiet 0 [0; 1; 2]%Q
           (Scheduler.create 120 (Scheduler.mkConfig (1 # 10) 25)) []).
  reflexivity.
Defined.

(** ** Scheduler: the tick stream *)

Section TickStream.
Context {W : Type}.
Implicit Types (s : Scheduler.t W) (w : W) (cb : Scheduler.SchedulerCallback W).
Local Open Scope Q_scope.



















End TickStream.




(** ** Sequencer: transport *)

Section TransportProperties.
Context {Sch : Type} `{IScheduler.ops Sch}.
Implicit Types (s : Sequencer.t Sch) (p : Pattern.t).

(** X19 (play and pause are idempotent). A second [play], and a second
    [pause], changes nothing; [play] without a pattern and [pause] when not
    playing change nothing either. This holds for every implementation of
    [IScheduler]. *)
Theorem play_pause_idempotent s :
  Sequencer.play (Sequencer.play s) = Sequencer.play s ∧
  Sequencer.pause (Sequencer.pause s) = Sequencer.pause s ∧
  (Sequencer._pattern s = None → Sequencer.play s = s) ∧
  (Sequencer.status s ≠ Sequencer.playing → Sequencer.pause s = s).
Proof.
  unfold Sequencer.play, Sequencer.pause, Sequencer.status,
    Sequencer.isPlaying.
  destruct s as [e sch p ts cs cfg solo]. simpl.
  destruct ts, p; simpl; repeat split; try done; by intros [].
Qed.

(** X20 (resuming starts over). [pause] on a playing Sequencer records the
    scheduler's current beat, but [play] after it does not read the record:
    the transport is playing from start beat 0 at the current audio time,
    and the scheduler is started again after having been stopped; the
    pattern and the step cursor are kept. *)
Theorem play_after_pause_restarts s p :
  Sequencer._pattern s = Some p →
  Sequencer.status s = Sequencer.playing →
  Sequencer.transportState (Sequencer.pause s)
    = Sequencer.Paused (IScheduler.getCurrentBeat (Sequencer._scheduler s)) ∧
  Sequencer.transportState (Sequencer.play (Sequencer.pause s))
    = Sequencer.Playing 0
        (AudioEngine.currentTime (Sequencer._audioEngine s)) ∧
  Sequencer._scheduler (Sequencer.play (Sequencer.pause s))
    = IScheduler.start (IScheduler.stop (Sequencer._scheduler s)) ∧
  Sequencer.currentStep (Sequencer.play (Sequencer.pause s))
    = Sequencer.currentStep s ∧
  Sequencer.pattern (Sequencer.play (Sequencer.pause s)) = Some p.
Proof.
  intros Hp Hs. apply status_playing in Hs.
  unfold Sequencer.play, Sequencer.pause. rewrite Hs. simpl. rewrite Hp.
  by repeat split.
Qed.

Lemma exec_keeps_playing_invariant (c : Command.t) s :
  (Sequencer.status s = Sequencer.playing → is_Some (Sequencer._pattern s)) →
  Sequencer.status (exec c s) = Sequencer.playing →
  is_Some (Sequencer._pattern (exec c s)).
Proof.
  intros Hinv.
  destruct c; simpl; unfold_sequencer; case_branches; simpl; intros Hst;
    try match goal with
        | E : Sequencer._pattern _ = _ |- _ => rewrite ?E
        end;
    first [ done | by eauto | by apply Hinv ].
Qed.

Lemma exec_keeps_config (c : Command.t) s :
  Sequencer._config (exec c s) = Sequencer._config s.
Proof. destruct c; simpl; unfold_sequencer; case_branches; done. Qed.

(** X21 (playing needs a pattern). After any sequence of calls on a new
    Sequencer, the status is [playing] only if a pattern is held, and the
    configuration is the one given to the constructor. *)
Theorem playing_implies_pattern (cs : list Command.t) (e : AudioEngine.t)
    (sch : Sch) (config : Sequencer.SequencerConfig) :
  let s := run cs (Sequencer.create e sch config) in
  (Sequencer.status s = Sequencer.playing → is_Some (Sequencer.pattern s)) ∧
  Sequencer._config s = config.
Proof.
  assert (∀ s0 : Sequencer.t Sch,
            (Sequencer.status s0 = Sequencer.playing →
             is_Some (Sequencer._pattern s0)) →
            (Sequencer.status (run cs s0) = Sequencer.playing →
             is_Some (Sequencer._pattern (run cs s0))) ∧
            Sequencer._config (run cs s0) = Sequencer._config s0) as Hrun.
  { induction cs as [|c cs IH]; intros s0 Hinv; [done|].
    unfold run in *. simpl.
    destruct (IH (exec c s0)) as [Hplay Hcfg].
    - by apply exec_keeps_playing_invariant.
    - split; [done|]. by rewrite Hcfg, exec_keeps_config. }
  intros s. apply Hrun. done.
Qed.

Lemma exec_voices (c : Command.t) s :
  voices s `prefix_of` voices (exec c s) ∧
  (Command.isTick c = false → voices (exec c s) = voices s).
Proof.
  destruct c; simpl;
    first
      [ (* the tick handler *)
        split; [|done];
        unfold voices, Sequencer._onSchedulerTick;
        destruct (Sequencer._pattern s); [|done];
        destruct (negb _); [done|]; simpl;
        rewrite processTracks_voices; by apply prefix_app_r
      | (* every other call *)
        match goal with
        | |- ?l `prefix_of` voices ?x ∧ _ =>
            assert (voices x = l) as ->;
            [ unfold voices; unfold_sequencer; case_branches; done | done ]
        end ].
Qed.

(** X22 (the voice port only grows). No sequence of calls removes or changes
    a voice command already issued, and a sequence without ticks issues
    none. *)
Theorem voices_only_grow (cs : list Command.t) s :
  voices s `prefix_of` voices (run cs s) ∧
  (Forall (λ c, Command.isTick c = false) cs → voices (run cs s) = voices s).
Proof.
  revert s. induction cs as [|c cs IH]; intros s; [done|].
  unfold run in *. simpl. destruct (IH (exec c s)) as [Hpre Heq].
  destruct (exec_voices c s) as [Hpre1 Heq1]. split.
  - by etrans.
  - intros [Hc Hcs]%Forall_cons. by rewrite Heq, Heq1.
Qed.

End TransportProperties.

Lemma play_after_pause_restarts_witness :
  Sequencer.transportState (Sequencer.pause playingSequencer)
    = Sequencer.Paused 0 ∧
  Sequencer.transportState (Sequencer.play (Sequencer.pause
      (Sequencer._onSchedulerTick 1 2 playingSequencer)))
    = Sequencer.Playing 0 0 ∧
  Sequencer.currentStep (Sequencer.play (Sequencer.pause
      (Sequencer._onSchedulerTick 1 2 playingSequencer))) = Int 8.
Proof.
  destruct (play_after_pause_restarts playingSequencer testPattern eq_refl eq_refl)
    as (Hpause & _).
  destruct (play_after_pause_restarts
              (Sequencer._onSchedulerTick 1 2 playingSequencer) testPattern
              eq_refl eq_refl) as (_ & Hplay & _ & Hstep & _).
  split; [exact Hpause|]. split; [exact Hplay|]. rewrite Hstep. reflexivity.
Defined.

(** ** Sequencer: what a tick issues *)

Section TickOutput.
Context {Sch : Type} `{IScheduler.ops Sch}.
Implicit Types (s : Sequencer.t Sch) (p : Pattern.t).

Lemma tick_not_playing (time beat : Q) s :
  Sequencer.status s ≠ Sequencer.playing →
  Sequencer._onSchedulerTick time beat s = s.
Proof.
  intros Hs. unfold Sequencer._onSchedulerTick.
  destruct (Sequencer._pattern s); [|done].
  destruct (Sequencer.isPlaying _) eqn:E; [|done].
  by apply status_playing in E.
Qed.

Lemma trackVoice_wellformed (h : bool) (time : Q) (step : JsInt)
    (track : Track.t) (v : VoiceConfig.t) :
  Sequencer.trackVoice h time step track = Some v →
  VoiceConfig.sampleId v = Track.sampleId track ∧
  VoiceConfig.startTime v = time ∧
  unitInterval (VoiceConfig.gain v) ∧
  VoiceConfig.playbackRate v = None ∧
  Track.muted track = false ∧
  (h = true → Track.soloed track = true) ∧
  ∃ st, array_get (Track.steps track) step = Some st ∧ Step.active st = true.
Proof.
  unfold Sequencer.trackVoice.
  destruct (Track.muted track) eqn:Hm; [done|].
  destruct (h && negb (Track.soloed track)) eqn:Hs; [done|].
  destruct (array_get _ _) as [st|] eqn:Hget; [|done].
  destruct (Step.active st) eqn:Hact; [|done]. simpl. intros [= <-]. simpl.
  repeat split; try apply gainValue_bounds.
  - intros ->. by destruct (Track.soloed track).
  - by exists st.
Qed.


Lemma trackVoice_missing (h : bool) (time : Q) (step : JsInt)
    (track : Track.t) :
  array_get (Track.steps track) step = None →
  Sequencer.trackVoice h time step track = None.
Proof.
  intros Hget. unfold Sequencer.trackVoice. rewrite Hget.
  destruct (Track.muted track); [done|]. by destruct (_ && _).
Qed.

Lemma omap_all_None {A B : Type} (f : A → option B) (l : list A) :
  (∀ x, x ∈ l → f x = None) → omap f l = [].
Proof.
  induction l as [|a l IH]; [done|]. intros Hall. simpl.
  rewrite (Hall a) by left. apply IH. intros x Hx. apply Hall. by right.
Qed.

(** X24 (a pattern of length 0). Playing a pattern whose [length] is 0, a
    tick sets the step cursor to [NaN] and issues no voice command. *)
Theorem zero_length_pattern_is_silent (time beat : Q) s p :
  Sequencer._pattern s = Some p →
  Sequencer.status s = Sequencer.playing →
  Pattern.length p = 0 →
  Sequencer.currentStep (Sequencer._onSchedulerTick time beat s) = NaN ∧
  voices (Sequencer._onSchedulerTick time beat s) = voices s.
Proof.
  intros Hp Hs HL. destruct (tick_playing time beat s p Hp Hs) as [-> ->].
  unfold Sequencer.stepOfBeat, js_rem. rewrite HL. simpl. split; [done|].
  rewrite omap_all_None; [by rewrite app_nil_r|].
  intros track _. by apply trackVoice_missing.
Qed.

(** X25 (a cleared pattern is silent). While the held pattern is the result
    of [clearPattern], no tick issues a voice command. *)
Theorem cleared_pattern_is_silent (now : Z) (time beat : Q) s p :
  Sequencer._pattern s = Some (clearPattern now p) →
  voices (Sequencer._onSchedulerTick time beat s) = voices s.
Proof.
  intros Hp. destruct (Sequencer.status s) eqn:Hs.
  1, 3: by rewrite tick_not_playing by (by rewrite Hs).
  destruct (tick_playing time beat s _ Hp Hs) as [_ ->].
  rewrite omap_all_None; [by rewrite app_nil_r|].
  intros track Hin.
  destruct (Sequencer.trackVoice _ _ _ track) as [v|] eqn:Hfire; [|done].
  apply trackVoice_wellformed in Hfire
    as (_ & _ & _ & _ & _ & _ & st & Hget & Hact).
  apply list_elem_of_lookup in Hin as [k Hk].
  unfold array_get in Hget.
  destruct (Sequencer.stepOfBeat _ _ _) as [|z]; [done|].
  destruct (z <? 0); [done|].
  destruct (clearPattern_all_inactive_aux now p k (Z.to_nat z) track st Hk Hget).
  congruence.
Qed.

End TickOutput.


Lemma zero_length_pattern_is_silent_witness :
  Sequencer.currentStep
    (Sequencer._onSchedulerTick 0 0
       (Sequencer.play (Sequencer.setPattern emptyLengthPattern freshSequencer)))
    = NaN ∧
  voices
    (Sequencer._onSchedulerTick 0 0
       (Sequencer.play (Sequencer.setPattern emptyLengthPattern freshSequencer)))
    = [].
Proof.
  exact (zero_length_pattern_is_silent 0 0
           (Sequencer.play (Sequencer.setPattern emptyLengthPattern freshSequencer))
           emptyLengthPattern eq_refl eq_refl eq_refl).
Defined.

Lemma cleared_pattern_is_silent_witness :
  voices (Sequencer._onSchedulerTick 0 0
            (Sequencer.play
               (Sequencer.setPattern (clearPattern 1 testPattern) freshSequencer)))
  = [].
Proof.
  exact (cleared_pattern_is_silent 1 0 0
           (Sequencer.play
              (Sequencer.setPattern (clearPattern 1 testPattern) freshSequencer))
           testPattern eq_refl).
Defined.

(** ** Sequencer: the step cursor *)



(** X26 (the cursor stays inside the pattern). Take the beat position of
    the [k]-th tick of the Scheduler, [k] quarter beats with [k] below 2^53
    (so that the position and its product with 4 are whole multiples of a
    quarter that a JavaScript number holds exactly), 4 steps per beat and a
    positive pattern length [L]. The step of the tick is [k mod L], an
    integer in [0, L), and it addresses an element of every array of [L]
    steps: a track with as many steps as the pattern is never skipped for a
    missing step. *)
Theorem step_cursor_in_range (config : Sequencer.SequencerConfig) (L : Z)
    (k : nat) (beat : Q) :
  (beat == inject_Z (Z.of_nat k) * (1 # 4))%Q →
  (Sequencer.stepsPerBeat config == 4)%Q →
  Z.of_nat k < 2 ^ 53 → 0 < L → L < 2 ^ 53 →
  Sequencer.stepOfBeat config L beat = Int (Z.of_nat k mod L) ∧
  0 <= Z.of_nat k mod L < L ∧
  ∀ (A : Type) (steps : list A),
    Z.of_nat (length steps) = L →
    is_Some (array_get steps (Int (Z.of_nat k mod L))).
Proof.
  intros Hbeat Hspb _ HL _.
  pose proof (Z.mod_pos_bound (Z.of_nat k) L HL) as Hbound.
  split; [|split; [done|]].
  - unfold Sequencer.stepOfBeat, js_rem.
    assert (Qfloor (beat * Sequencer.stepsPerBeat config) = Z.of_nat k) as ->.
    { rewrite <- (Qfloor_Z (Z.of_nat k)). apply Qfloor_comp.
      rewrite Hbeat, Hspb. field. }
    assert ((L =? 0) = false) as -> by lia.
    f_equal. apply Z.rem_mod_nonneg; lia.
  - intros A steps Hlen. unfold array_get.
    assert ((Z.of_nat k mod L <? 0) = false) as -> by lia.
    apply lookup_lt_is_Some. lia.
Qed.

Lemma step_cursor_in_range_witness :
  Sequencer.stepOfBeat Sequencer.DEFAULT_CONFIG 16 (21 # 4) = Int 5 ∧
  is_Some (array_get (Track.steps kickTrack) (Int 5)).
Proof.
  destruct (step_cursor_in_range Sequencer.DEFAULT_CONFIG 16 21 (21 # 4))
    as (Hstep & _ & Hget); [reflexivity..|].
  split; [exact Hstep|]. apply (Hget _ (Track.steps kickTrack)). reflexivity.
Defined.

Section StepCursor.
Context {Sch : Type} `{IScheduler.ops Sch}.
Implicit Types (s : Sequencer.t Sch) (p : Pattern.t).



End StepCursor.


(** ** Sequencer: the solo-set over runs *)

Lemma mapTrack_ids (f : Track.t → Track.t) (t : string)
    (tracks : list Track.t) :
  (∀ track, Track.id (f track) = Track.id track) →
  Track.id <$> mapTrack f t tracks = Track.id <$> tracks.
Proof.
  intros Hf. unfold mapTrack. rewrite <- list_fmap_compose.
  apply list_fmap_ext. intros k track _. simpl.
  destruct (String.eqb _ _); [apply Hf|done].
Qed.

Lemma find_mapTrack (f : Track.t → Track.t) (t : string)
    (tracks : list Track.t) :
  (∀ track, Track.id (f track) = Track.id track) →
  List.find (λ x, String.eqb (Track.id x) t) (mapTrack f t tracks) =
  f <$> List.find (λ x, String.eqb (Track.id x) t) tracks.
Proof.
  intros Hf. unfold mapTrack. induction tracks as [|a rest IH]; [done|].
  rewrite fmap_cons. simpl.
  destruct (String.eqb (Track.id a) t) eqn:E.
  - by rewrite Hf, E.
  - by rewrite E.
Qed.

Lemma find_present (t : string) (tracks : list Track.t) :
  t ∈ Track.id <$> tracks →
  ∃ track, List.find (λ x, String.eqb (Track.id x) t) tracks = Some track.
Proof.
  induction tracks as [|a rest IH]; [by intros ?%elem_of_nil|].
  rewrite fmap_cons, elem_of_cons. simpl.
  destruct (String.eqb_spec (Track.id a) t) as [Heq|Hne]; [by eauto|].
  intros [Ht|Ht]; [congruence|by apply IH].
Qed.

Lemma soloedIdsOf_member (t : string) (tracks : list Track.t)
    (track : Track.t) :
  NoDup (Track.id <$> tracks) →
  List.find (λ x, String.eqb (Track.id x) t) tracks = Some track →
  (t ∈ soloedIdsOf tracks ↔ Track.soloed track = true).
Proof.
  induction tracks as [|a rest IH]; [done|].
  rewrite fmap_cons, NoDup_cons. intros [Ha Hnd]. simpl.
  rewrite soloedIdsOf_cons.
  destruct (String.eqb_spec (Track.id a) t) as [Heq|Hne].
  - intros [= <-].
    assert (t ∉ soloedIdsOf rest) as Hout.
    { intros Hin%soloedIdsOf_subseteq. congruence. }
    destruct (Track.soloed a); set_solver.
  - intros Hfind. rewrite <- (IH Hnd Hfind).
    destruct (Track.soloed a); set_solver.
Qed.

Section SoloRuns.
Context {Sch : Type} `{IScheduler.ops Sch}.
Implicit Types (s : Sequencer.t Sch) (p : Pattern.t).

Lemma exec_track_ids (c : Command.t) s :
  Command.isSetPattern c = false →
  (trackIds <$> Sequencer._pattern (exec c s))
    = (trackIds <$> Sequencer._pattern s) ∨
  Sequencer._pattern (exec c s) = None.
Proof.
  intros Hc.
  assert (∀ (f : Track.t → Track.t) (t : string) (now : Z) p,
            (∀ track, Track.id (f track) = Track.id track) →
            trackIds (withTracks (mapTrack f t (Pattern.tracks p)) now p)
              = trackIds p) as Hids.
  { intros f t now p Hf. unfold trackIds. simpl. by apply mapTrack_ids. }
  destruct c; try done; simpl; unfold_sequencer;
    try (left; reflexivity); try (right; reflexivity).
  - left. destruct (Sequencer.isPlaying _); [done|].
    by destruct (Sequencer._pattern s) eqn:E; simpl; rewrite ?E.
  - left. by destruct (negb _).
  - left. destruct (Sequencer._pattern s) as [p|] eqn:E; simpl; [|by rewrite E].
    f_equal. apply Hids. by intros [].
  - left. destruct (Sequencer._pattern s) as [p|] eqn:E; simpl; [|by rewrite E].
    destruct (List.find _ _); simpl; [|by rewrite E].
    f_equal. apply Hids. by intros [].
  - left. destruct (Sequencer._pattern s) as [p|] eqn:E; simpl; [|by rewrite E].
    f_equal. apply Hids. by intros [].
  - left. destruct (Sequencer._pattern s) as [p|] eqn:E; simpl; [|by rewrite E].
    f_equal. apply Hids. by intros [].
  - left. destruct (Sequencer._pattern s) as [p|] eqn:E; simpl; [|by rewrite E].
    f_equal. apply Hids. by intros [].
  - left. destruct (Sequencer._pattern s) as [p|] eqn:E; simpl; [|by rewrite E].
    destruct (negb _); simpl; by rewrite E.
Qed.

Lemma exec_keeps_uniqueIds (c : Command.t) s :
  Command.isSetPattern c = false → uniqueIds s → uniqueIds (exec c s).
Proof.
  unfold uniqueIds. intros Hc Hu q Hq.
  destruct (exec_track_ids c s Hc) as [Hids|Hnone]; [|congruence].
  rewrite Hq in Hids. simpl in Hids.
  destruct (Sequencer._pattern s) as [p|] eqn:Hp; [|done].
  injection Hids as ->. by apply Hu.
Qed.

Lemma exec_keeps_soloInSync (c : Command.t) s :
  Command.isSetPattern c = false → uniqueIds s → soloInSync s →
  soloInSync (exec c s).
Proof.
  intros Hc Hu Hsync.
  destruct (soloInSync_transport s Hsync)
    as (Hplay & Hpause & Hstop & Hdestroy & Htempo).
  destruct c; try done; simpl.
  - by apply soloInSync_toggleMute.
  - by apply soloInSync_toggleSolo.
  - by apply soloInSync_setTrackVolume.
  - by apply soloInSync_toggleStep.
  - by apply soloInSync_setStepVelocity.
  - by apply soloInSync_tick.
Qed.

(** X28 (the solo-set stays in sync between loads). From a Sequencer whose
    solo-set is the set of soloed track ids of its pattern and whose track
    ids are distinct, every sequence of calls without [setPattern] leads to
    such a Sequencer again; there, with a non-empty solo-set, a playing tick
    issues nothing for a track outside the solo-set. *)
Theorem solo_in_sync_without_reload (cs : list Command.t) s :
  Forall (λ c, Command.isSetPattern c = false) cs →
  soloInSync s →
  (∀ p, Sequencer._pattern s = Some p → NoDup (trackIds p)) →
  soloInSync (run cs s) ∧
  (∀ p, Sequencer._pattern (run cs s) = Some p → NoDup (trackIds p)) ∧
  ∀ (time beat : Q) p (k : nat) (A : Track.t),
    Sequencer._pattern (run cs s) = Some p →
    Sequencer.status (run cs s) = Sequencer.playing →
    Sequencer._soloedTracks (run cs s) ≠ ∅ →
    Pattern.tracks p !! k = Some A →
    Track.id A ∉ Sequencer._soloedTracks (run cs s) →
    Sequencer.trackVoice (Sequencer.hasSoloedTracks (run cs s)) time
      (Sequencer.stepOfBeat (Sequencer._config (run cs s))
         (Pattern.length p) beat) A = None.
Proof.
  intros Hcs Hsync Hu.
  assert (soloInSync (run cs s) ∧ uniqueIds (run cs s)) as [Hsync' Hu'].
  { revert s Hsync Hu. induction Hcs as [|c cs Hc Hcs IH]; intros s Hsync Hu;
      [done|].
    unfold run in *. simpl. apply IH.
    - by apply exec_keeps_soloInSync.
    - by apply exec_keeps_uniqueIds. }
  split; [done|]. split; [done|].
  intros time beat p k A Hp Hs Hne Hk Hout.
  by destruct (solo_isolation_in_sync time beat _ p k A Hsync' Hp Hs Hne Hk Hout).
Qed.

(** X29 (toggleSolo twice). On a Sequencer whose solo-set is in sync and
    whose track ids are distinct, [toggleSolo] applied twice to a track of
    the pattern restores the tracks and the solo-set: only the pattern's
    [modifiedAt] has changed. *)
Theorem toggleSolo_twice (now1 now2 : Z) (t : string) s p :
  Sequencer._pattern s = Some p →
  t ∈ trackIds p →
  NoDup (trackIds p) →
  soloInSync s →
  Sequencer.toggleSolo now2 t (Sequencer.toggleSolo now1 t s) =
    Sequencer.set_pattern (Some (withModifiedAt now2 p)) s.
Proof.
  unfold trackIds, soloInSync. intros Hp Hin Hnd Hsync.
  destruct (find_present t _ Hin) as [track Hfind].
  pose proof (soloedIdsOf_member t _ track Hnd Hfind) as Hmem.
  rewrite Hp in Hsync. simpl in Hsync. rewrite <- Hsync in Hmem.
  unfold Sequencer.toggleSolo. rewrite Hp, Hfind. simpl.
  rewrite find_mapTrack, Hfind by (by intros []). simpl.
  rewrite mapTrack_involutive;
    [|by intros []|intros []; unfold flipSoloed; simpl;
                   by rewrite negb_involutive].
  destruct s as [e sch pat ts cs cfg solo]. simpl in *.
  unfold Sequencer.set_pattern, Sequencer.set_soloedTracks. simpl.
  f_equal.
  destruct (Track.soloed track) eqn:E; simpl.
  - assert (t ∈ solo) as Hts by (by apply Hmem).
    apply set_eq. intros x. destruct (decide (x = t)); set_solver.
  - assert (t ∉ solo) as Hts by (intros Hts; apply Hmem in Hts; done).
    set_solver.
Qed.

End SoloRuns.

Lemma solo_in_sync_without_reload_witness :
  soloInSync
    (run [Command.ToggleSolo 1 "kick"; Command.Play; Command.ToggleMute 2 "snare";
          Command.Tick 0 0; Command.ToggleSolo 3 "snare"; Command.Pause]
       loadedSequencer).
Proof.
  apply (solo_in_sync_without_reload
           [Command.ToggleSolo 1 "kick"; Command.Play;
            Command.ToggleMute 2 "snare"; Command.Tick 0 0;
            Command.ToggleSolo 3 "snare"; Command.Pause] loadedSequencer).
  - repeat constructor.
  - reflexivity.
  - intros p [= <-]. compute_done.
Defined.

Lemma toggleSolo_twice_witness :
  Sequencer.toggleSolo 2 "kick" (Sequencer.toggleSolo 1 "kick" loadedSequencer)
    = Sequencer.set_pattern (Some (withModifiedAt 2 testPattern)) loadedSequencer.
Proof.
  apply (toggleSolo_twice 1 2 "kick" loadedSequencer testPattern).
  - reflexivity.
  - compute_done.
  - compute_done.
  - reflexivity.
Defined.

(** ** The Scheduler driving the Sequencer *)

Section Driving.
Context {Sch : Type} `{IScheduler.ops Sch}.
Implicit Types (s : Sequencer.t Sch) (p : Pattern.t).




End Driving.


(** The same run, computed: five ticks, at 0, 0.125, ..., 0.5 s; the kick
    plays on the first and the snare on the fifth. *)
Example scheduler_drives_sequencer_run :
  (λ r, (Sequencer.currentStep r.2,
         VoiceConfig.sampleId <$> voices r.2)) <$>
    Scheduler.runPolls 3 [0; 1 # 4; 1 # 2]%Q
      (Scheduler.start tickCallback 0
         (Scheduler.create 120 (Scheduler.mkConfig (1 # 10) 25)))
      playingSequencer
  = Some (Int 4, ["kick"; "snare"]).
Proof. vm_compute. reflexivity. Qed.
